(** * Cubic B-spline basis of CausalKinetiX: [CausalKinetiX/BSbasis.py]

    A shallow embedding of the module and the properties of its
    piecewise-polynomial algebra.

    Numbers.  The module computes with numpy [float64].  Here a number is an
    exact rational [Qc] (canonical fractions, Leibniz equality, computable):
    every statement below is about the exact arithmetic the code performs,
    not about rounding.

    External library.  [get_BSbasis] obtains each coefficient table from
    scipy ([BSpline.basis_element], [PPoly.from_spline]); scipy is not part
    of the module, so the table is a parameter [Bbasis_c] of [get_BSbasis]. *)

From Stdlib Require Import ZArith QArith Qcanon List Lia Bool Eqdep_dec.
Import ListNotations.
Open Scope Qc_scope.

(* ================================================================== *)
(** * Numbers *)

Definition Qcleb (x y : Qc) : bool := Qle_bool x y.
Definition Qcltb (x y : Qc) : bool := negb (Qle_bool y x).
Definition Qceqb (x y : Qc) : bool := Qc_eq_bool x y.

(** An integer used as a number (numpy promotes it to float). *)
Definition ofZ (z : Z) : Qc := Q2Qc (inject_Z z).
Definition ofnat (n : nat) : Qc := ofZ (Z.of_nat n).

(* ================================================================== *)
(** * Exceptions *)

Inductive exn : Set :=
| AssertionError   (* a failed [assert] *)
| IndexError       (* an index out of range *)
| AttributeError   (* an attribute the object does not have *)
| ValueError       (* numpy: an assignment that does not fit its target *)
| Exception_.      (* the [raise(Exception(...))] of [__mod__] *)

Inductive result (A : Type) : Type :=
| Ok (a : A)
| Raise (e : exn).
Arguments Ok {A} a.
Arguments Raise {A} e.

Definition bind {A B} (r : result A) (k : A -> result B) : result B :=
  match r with
  | Ok a => k a
  | Raise e => Raise e
  end.

Notation "x <- c1 ;; c2" := (bind c1 (fun x => c2))
  (at level 61, c1 at next level, right associativity).
Notation "c1 ;; c2" := (bind c1 (fun _ => c2))
  (at level 61, right associativity).

(** [assert(b)] *)
Definition assert_ (b : bool) : result unit :=
  if b then Ok tt else Raise AssertionError.

Fixpoint mapM {A B} (f : A -> result B) (l : list A) : result (list B) :=
  match l with
  | [] => Ok []
  | a :: l' => b <- f a ;; bs <- mapM f l' ;; Ok (b :: bs)
  end.

Definition is_ok {A} (r : result A) : bool :=
  match r with Ok _ => true | Raise _ => false end.

(* ================================================================== *)
(** * Python sequences

    The module tells a numpy array from any other sequence
    ([type(x) == np.ndarray]).  A sequence argument is therefore tagged; its
    [items] are its entries along the first axis (numbers for a 1-D array,
    rows for a 2-D array). *)

Inductive pyseq (A : Type) : Type :=
| PyList (xs : list A)     (* a Python list *)
| NdArray (xs : list A).   (* a numpy array *)
Arguments PyList {A} xs.
Arguments NdArray {A} xs.

Definition items {A} (s : pyseq A) : list A :=
  match s with PyList xs => xs | NdArray xs => xs end.

(** [type(s) == np.ndarray] *)
Definition is_ndarray {A} (s : pyseq A) : bool :=
  match s with PyList _ => false | NdArray _ => true end.

(** Python's index normalisation for slices: [l[i:]], [l[:i]]. *)
Definition slice_index (len : nat) (i : Z) : nat :=
  if (i <? 0)%Z then Z.to_nat (Z.max 0 (Z.of_nat len + i))
  else Nat.min (Z.to_nat i) len.

(** [l[start:]] *)
Definition slice_from {A} (start : Z) (l : list A) : list A :=
  skipn (slice_index (length l) start) l.

(** [l[:stop]] *)
Definition slice_to {A} (stop : Z) (l : list A) : list A :=
  firstn (slice_index (length l) stop) l.

(** [l[i:j]] for non-negative [i], [j]. *)
Definition slice {A} (i j : nat) (l : list A) : list A :=
  firstn (j - i) (skipn i l).

(** [l[i]] with Python's negative indices; out of range raises. *)
Definition getitem {A} (l : list A) (i : Z) : result A :=
  let n := Z.of_nat (length l) in
  let j := if (i <? 0)%Z then (n + i)%Z else i in
  if ((0 <=? j) && (j <? n))%Z
  then match nth_error l (Z.to_nat j) with
       | Some a => Ok a
       | None => Raise IndexError
       end
  else Raise IndexError.

(** [l[i]] at an index known to be in range ([d] is never returned for an
    object built by [__init__]: 5 knots, 4 rows of 4 coefficients). *)
Definition at_ {A} (d : A) (l : list A) (i : nat) : A := nth i l d.

(* ================================================================== *)
(** * 2-D tables *)

Definition table := list (list Qc).

(** [t.shape == (r, c)] *)
Definition shape_is (r c : nat) (t : table) : bool :=
  (length t =? r)%nat && forallb (fun row => (length row =? c)%nat) t.

(** [t.shape == (r, c)] for an argument that may be a nested Python list:
    a list has no [shape]. *)
Definition shape_eq (r c : nat) (t : pyseq (list Qc)) : result bool :=
  if is_ndarray t then Ok (shape_is r c (items t)) else Raise AttributeError.

(** [np.zeros([r, c])] *)
Definition zeros (r c : nat) : table := repeat (repeat 0 c) r.

(** [t[i, :]] *)
Definition row (t : table) (i : nat) : list Qc := at_ [] t i.

(** [t[i, k]] *)
Definition cell (t : table) (i k : nat) : Qc := at_ 0 (row t i) k.

(** [t[:, c:]] *)
Definition cols_from (c : nat) (t : table) : table := map (skipn c) t.

(* ================================================================== *)
(** * class PP_Cubic *)

Record PP_Cubic : Type := mkPP {
  idx : Z;
  knots : list Qc;      (* the entries of the stored numpy array *)
  coefs : table         (* [piece_id, term_order] *)
}.

(** [(xs > ys).sum()]: the number of positions where [xs] exceeds [ys]. *)
Definition count_gt (xs ys : list Qc) : nat :=
  length (filter (fun xy => Qcltb (snd xy) (fst xy)) (combine xs ys)).

(** [PP_Cubic.__init__].  [knots] is a Python list or a 1-D numpy array of
    numbers, [coefs] a nested Python list or a 2-D numpy array (its rows);
    the four assertions run in the order of lines 39-42. *)
Definition __init__ (idx0 : Z) (knots0 : pyseq Qc) (coefs0 : pyseq (list Qc))
  : result PP_Cubic :=
  assert_ (length (items knots0) =? 5)%nat ;;
  assert_ (is_ndarray knots0) ;;
  shape_ok <- shape_eq 4 4 coefs0 ;;
  assert_ shape_ok ;;
  assert_ (count_gt (removelast (items knots0)) (tl (items knots0)) =? 0)%nat ;;
  Ok (mkPP idx0 (items knots0) (items coefs0)).

(** [sum(self.coefs[r, k]*(x-self.knots[r])**(3-k) for k in range(4))]:
    Python's [sum] starts from 0 and adds the terms from left to right. *)
Definition piece (p : PP_Cubic) (r : nat) (x : Qc) : Qc :=
  fold_left
    (fun acc k => acc + cell (coefs p) r k * (x - at_ 0 (knots p) r) ^ (3 - k))
    (seq 0 4) 0.

(** [(self.knots <= x).sum()] *)
Definition count_le (ks : list Qc) (x : Qc) : nat :=
  length (filter (fun k => Qcleb k x) ks).

(** The local function [eval_PP] of [PP_Cubic.__call__].  In the last
    branch [knots[0] <= x], so the count is at least 1 and the row index is
    not negative. *)
Definition eval_PP (p : PP_Cubic) (x : Qc) : Qc :=
  let k := at_ 0 (knots p) in
  if negb (Qcleb (k 0%nat) x && Qcleb x (k 4%nat)) then 0
  else if Qcleb (k 0%nat) x && Qcleb x (k 1%nat) then piece p 0 x
  else if Qcleb (k 1%nat) x && Qcleb x (k 2%nat) then piece p 1 x
  else
    let i := Z.min 3 (Z.of_nat (count_le (knots p) x) - 1) in
    piece p (Z.to_nat i) x.

(** [PP_Cubic.__call__]: [np.vectorize(eval_PP)(vec)]. *)
Definition __call__ (p : PP_Cubic) (vec : pyseq Qc) : result (list Qc) :=
  assert_ (is_ndarray vec) ;;
  Ok (map (eval_PP p) (items vec)).

(* ------------------------------------------------------------------ *)
(** ** numpy's [poly1d] *)

(** [np.trim_zeros(c, trim='f')] *)
Fixpoint trim_zeros (c : list Qc) : list Qc :=
  match c with
  | [] => []
  | a :: c' => if Qceqb a 0 then trim_zeros c' else c
  end.

(** [np.poly1d(c).coefficients]: leading zeros dropped, never empty. *)
Definition poly1d (c : list Qc) : list Qc :=
  match trim_zeros c with
  | [] => [0]
  | c' => c'
  end.

(** [p[:-1] * arange(n, 0, -1)] for [n = len(p) - 1]. *)
Fixpoint scale_desc (p : list Qc) : list Qc :=
  match p with
  | [] => []
  | [_] => []
  | a :: p' => a * ofnat (length p') :: scale_desc p'
  end.

(** [np.poly1d(c).deriv().coefficients] *)
Definition deriv (c : list Qc) : list Qc := poly1d (scale_desc (poly1d c)).

(** [p / arange(len(p), 0, -1)] *)
Fixpoint divide_desc (p : list Qc) : list Qc :=
  match p with
  | [] => []
  | a :: p' => a / ofnat (length p) :: divide_desc p'
  end.

(** [np.poly1d(c).integ().coefficients]: the antiderivative with constant 0. *)
Definition integ (c : list Qc) : list Qc :=
  poly1d (divide_desc (poly1d c) ++ [0]).

(** [np.polyval(p, x)]: Horner's scheme. *)
Definition polyval (p : list Qc) (x : Qc) : Qc :=
  fold_left (fun y pv => y * x + pv) p 0.

(* ------------------------------------------------------------------ *)
(** ** [PP_Cubic.differentiate] *)

(** [self.coefs[i, :]]: row [i] of the table, [IndexError] when the table
    has no such row. *)
Definition getrow (c : table) (i : nat) : result (list Qc) :=
  match nth_error c i with
  | Some r => Ok r
  | None => Raise IndexError
  end.

(** [out[i, 4-len(tmp):] = tmp], on a row of [out] of length 4.  For
    [len(tmp) <= 4] the target is the last [len(tmp)] cells of the row.  For
    [len(tmp) > 4] the start [4-len(tmp)] is negative and counts from the
    end: the target has fewer than [len(tmp)] cells and numpy raises
    [ValueError]. *)
Definition set_row_tail (out : table) (i : nat) (tmp : list Qc)
  : result table :=
  if (length tmp <=? 4)%nat then
    Ok (firstn i out
        ++ match skipn i out with
           | [] => []
           | r :: rest => (firstn (4 - length tmp) r ++ tmp) :: rest
           end)
  else Raise ValueError.

Fixpoint foldM {A S} (f : S -> A -> result S) (l : list A) (s : S)
  : result S :=
  match l with
  | [] => Ok s
  | a :: l' => s' <- f s a ;; foldM f l' s'
  end.

(** The loop of [differentiate] over [out_coefs = np.zeros([4, 4])]. *)
Definition differentiate_coefs (c : table) : result table :=
  foldM (fun out i => r <- getrow c i ;; set_row_tail out i (deriv r))
        (seq 0 4) (zeros 4 4).

Definition differentiate (p : PP_Cubic) : result PP_Cubic :=
  out_coefs <- differentiate_coefs (coefs p) ;;
  __init__ (idx p) (NdArray (knots p)) (NdArray out_coefs).

(* ------------------------------------------------------------------ *)
(** ** [PP_Cubic.__mod__]

    [__mod__] is instrumented with a log of the numerical operations it
    starts: one entry per [differentiate()], [np.convolve] and [integ()]
    call, in program order. *)

Inductive op : Set := OpDifferentiate | OpConvolve | OpInteg.

Definition traced (A : Type) : Type := (list op * result A)%type.

Definition tret {A} (a : A) : traced A := ([], Ok a).

Definition tbind {A B} (m : traced A) (k : A -> traced B) : traced B :=
  match m with
  | (l, Ok a) => let (l', r) := k a in (l ++ l', r)
  | (l, Raise e) => (l, Raise e)
  end.

Definition tick (o : op) : traced unit := ([o], Ok tt).

Definition lift {A} (r : result A) : traced A := ([], r).

Notation "x <~ c1 ;; c2" := (tbind c1 (fun x => c2))
  (at level 61, c1 at next level, right associativity).

Fixpoint tmapM {A B} (f : A -> traced B) (l : list A) : traced (list B) :=
  match l with
  | [] => tret []
  | a :: l' => b <~ f a ;; bs <~ tmapM f l' ;; tret (b :: bs)
  end.

Fixpoint tfoldM {A S} (f : S -> A -> traced S) (l : list A) (s : S) : traced S :=
  match l with
  | [] => tret s
  | a :: l' => s' <~ f s a ;; tfoldM f l' s'
  end.

(** [np.convolve(a, b)]: the coefficients of the product polynomial
    ([__mod__] passes two rows of 2 coefficients and gets 3). *)
Fixpoint padd (a b : list Qc) : list Qc :=
  match a, b with
  | [], _ => b
  | _, [] => a
  | x :: a', y :: b' => (x + y) :: padd a' b'
  end.

Fixpoint convolve (a b : list Qc) : list Qc :=
  match a with
  | [] => []
  | x :: a' => padd (map (Qcmult x) b) (0 :: convolve a' b)
  end.

(** The local function [conv] of [__mod__]:
    [np.array([np.convolve(a, b) for (a, b) in zip(A, B)])]. *)
Definition conv (A B : table) : traced table :=
  tmapM (fun ab => _ <~ tick OpConvolve ;; tret (convolve (fst ab) (snd ab)))
        (combine A B).

(** [target[k, c:] = value[k]] for the rows the two tables share (on every
    path of [__mod__] they have the same number of rows). *)
Fixpoint assign_rows (c : nat) (target value : table) : table :=
  match target, value with
  | t :: ts, v :: vs => (firstn c t ++ v) :: assign_rows c ts vs
  | _, _ => target
  end.

(** [m[start:, c:] = value] *)
Definition set_rows_from (start : Z) (c : nat) (m value : table) : table :=
  let n := slice_index (length m) start in
  firstn n m ++ assign_rows c (skipn n m) value.

(** [m[:stop, c:] = value] *)
Definition set_rows_to (stop : Z) (c : nat) (m value : table) : table :=
  let n := slice_index (length m) stop in
  assign_rows c (firstn n m) value ++ skipn n m.

(** [np.poly1d(c).integ()(x)] *)
Definition integ_at (c : list Qc) (x : Qc) : traced Qc :=
  _ <~ tick OpInteg ;; tret (polyval (integ c) x).

(** The final loop of [__mod__]. *)
Definition integrate_rows (prod_coefs : table) (ks : list Qc) : traced Qc :=
  tfoldM (fun total i =>
            a <~ integ_at (row prod_coefs i) 0 ;;
            b <~ integ_at (row prod_coefs i)
                          (at_ 0 ks (i + 1) - at_ 0 ks i) ;;
            tret (total - a + b))
         (seq 0 4) 0.

Definition differentiate_t (p : PP_Cubic) : traced PP_Cubic :=
  _ <~ tick OpDifferentiate ;; lift (differentiate p).

Definition __mod__ (PP1 PP2 : PP_Cubic) : traced Qc :=
  if (3 <? Z.abs (idx PP1 - idx PP2))%Z then tret 0
  else
    PP1' <~ differentiate_t PP1 ;;
    PP1 <~ differentiate_t PP1' ;;
    PP2' <~ differentiate_t PP2 ;;
    PP2 <~ differentiate_t PP2' ;;
    prod_coefs <~
      (if (idx PP1 <? idx PP2)%Z then
         v <~ conv (cols_from 2 (slice_from (idx PP2 - idx PP1) (coefs PP1)))
                   (cols_from 2 (slice_to (idx PP1 - idx PP2) (coefs PP2))) ;;
         tret (set_rows_from (idx PP2 - idx PP1) 1 (zeros 4 4) v)
       else if (idx PP1 =? idx PP2)%Z then
         v <~ conv (cols_from 2 (coefs PP1)) (cols_from 2 (coefs PP2)) ;;
         tret (set_rows_from 0 1 (zeros 4 4) v)
       else if (idx PP2 <? idx PP1)%Z then
         v <~ conv (cols_from 2 (slice_to (idx PP2 - idx PP1) (coefs PP1)))
                   (cols_from 2 (slice_from (idx PP1 - idx PP2) (coefs PP2))) ;;
         tret (set_rows_to (idx PP2 - idx PP1) 1 (zeros 4 4) v)
       else lift (Raise Exception_)) ;;
    integrate_rows prod_coefs (knots PP1).

(** The value [PP1 % PP2]. *)
Definition product_integrate (PP1 PP2 : PP_Cubic) : result Qc :=
  snd (__mod__ PP1 PP2).

(* ================================================================== *)
(** * Basis construction *)

(** Lines 132-133 of [get_BSbasis], for an array of any dimension: the
    assertion on the argument's type and the padding along the first axis. *)
Definition get_BSbasis_padded {A} (data : pyseq A) : result (list A) :=
  assert_ (is_ndarray data) ;;
  first <- getitem (items data) 0 ;;
  last <- getitem (items data) (-1) ;;
  Ok (repeat first 3 ++ items data ++ repeat last 3).

(** [get_BSbasis].  [Bbasis_c w] stands for the table
    [PPoly.from_spline(BSpline.basis_element(w)).c.T[3:7]] that scipy
    computes for the window [w]. *)
Definition get_BSbasis (Bbasis_c : list Qc -> table) (data : pyseq Qc)
  : result (list PP_Cubic) :=
  data_padded <- get_BSbasis_padded data ;;
  mapM (fun i =>
          __init__ (Z.of_nat i)
                   (NdArray (slice i (i + 5) data_padded))
                   (NdArray (Bbasis_c (slice i (i + 5) data_padded))))
       (seq 0 (Z.to_nat (Z.of_nat (length (items data)) - 2 + 4))).

(* ================================================================== *)
(** * Matrix builders *)

(** A numpy array of numbers with its [shape]; [cells] are the rows of a
    2-D array. *)
Record ndarray : Type := mkArr {
  shape : list nat;
  cells : table
}.

(** [np.array(rows)] for a list of equally long 1-D arrays: an empty list
    gives the 1-D array of shape [(0,)]. *)
Definition np_array (rows : table) : ndarray :=
  match rows with
  | [] => mkArr [0%nat] []
  | r :: _ => mkArr [length rows; length r] rows
  end.

(** [a.T]: a 2-D array is transposed, a 1-D array is returned as it is. *)
Definition T (a : ndarray) : ndarray :=
  match shape a with
  | [m; n] =>
      mkArr [n; m]
            (map (fun j => map (fun r => at_ 0 r j) (cells a)) (seq 0 n))
  | _ => a
  end.

(** [a[i][j]] *)
Definition entry (a : ndarray) (i j : nat) : Qc := cell (cells a) i j.

Definition get_basis_matrix (data : pyseq Qc) (BSbasis : list PP_Cubic)
  : result ndarray :=
  cols <- mapM (fun basis => __call__ basis data) BSbasis ;;
  Ok (T (np_array cols)).

Definition get_deriv_matrix (data : pyseq Qc) (BSbasis : list PP_Cubic)
  : result ndarray :=
  BSderiv <- mapM differentiate BSbasis ;;
  cols <- mapM (fun deriv => __call__ deriv data) BSderiv ;;
  Ok (T (np_array cols)).

(** [BSbasis.reshape(M, 1) % BSbasis.reshape(M, 1).T]: the two object arrays
    broadcast to an [M] by [M] array of [__mod__] results. *)
Definition get_penalty_matrix (BSbasis : list PP_Cubic) : result ndarray :=
  rows <- mapM (fun bi => mapM (fun bj => product_integrate bi bj) BSbasis)
               BSbasis ;;
  Ok (mkArr [length BSbasis; length BSbasis] rows).

(* ================================================================== *)
(** * Objects built by the constructor *)

(** [p] is an object that [__init__] returns. *)
Definition valid (p : PP_Cubic) : Prop :=
  __init__ (idx p) (NdArray (knots p)) (NdArray (coefs p)) = Ok p.

(** Non-decreasing, as a boolean. *)
Fixpoint sortedb (l : list Qc) : bool :=
  match l with
  | [] => true
  | x :: l' => match l' with
               | [] => true
               | y :: _ => Qcleb x y && sortedb l'
               end
  end.

(** The coefficient table of a unit-spaced window, e.g. [[0,1,2,3,4]]: the
    uniform cubic B-spline, piece by piece in the local variable. *)
Definition uniform_c : table :=
  [ [Q2Qc (1#6); 0; 0; 0];
    [Q2Qc (-1#2); Q2Qc (1#2); Q2Qc (1#2); Q2Qc (1#6)];
    [Q2Qc (1#2); Q2Qc (-1#1); 0; Q2Qc (2#3)];
    [Q2Qc (-1#6); Q2Qc (1#2); Q2Qc (-1#2); Q2Qc (1#6)] ].

(** A stand-in for the scipy table in the examples below: [uniform_c] is
    what scipy returns for a unit-spaced window. *)
Definition uniform_basis_c (w : list Qc) : table := uniform_c.


(* ================================================================== *)
(** * Reference notions used in the statements *)

(** [ks] is sorted ascending: no entry exceeds a later one. *)
Definition nondecreasing (ks : list Qc) : Prop :=
  forall i j, (i <= j)%nat -> (j < length ks)%nat ->
              at_ 0 ks i <= at_ 0 ks j.

(** The value at [t] of the cubic with coefficient row [r] (degree 3 down
    to 0). *)
Definition cubic (r : list Qc) (t : Qc) : Qc :=
  at_ 0 r 0 * t ^ 3 + at_ 0 r 1 * t ^ 2 + at_ 0 r 2 * t + at_ 0 r 3.

(** The coefficient row of the derivative of [cubic r]. *)
Definition deriv_row (r : list Qc) : list Qc :=
  [0; at_ 0 r 0 * ofnat 3; at_ 0 r 1 * ofnat 2; at_ 0 r 2].

(** A concrete object for the examples: the uniform cubic B-spline on the
    knots 0, 1, 2, 3, 4. *)
Definition unit_knots : list Qc := map ofZ [0; 1; 2; 3; 4]%Z.
Definition pp_uniform : PP_Cubic := mkPP 0 unit_knots uniform_c.

(** The second derivative of [cubic r]: the linear function
    [slope * t + intercept], as the pair [(slope, intercept)]. *)
Definition second_derivative (r : list Qc) : Qc * Qc :=
  (at_ 0 r 0 * ofnat 3 * ofnat 2, at_ 0 r 1 * ofnat 2).

(** The integral over [[0, L]] of the product of two linear functions. *)
Definition linear_product_integral (u v : Qc * Qc) (L : Qc) : Qc :=
  fst u * fst v * L ^ 3 / ofnat 3
  + (fst u * snd v + snd u * fst v) * L ^ 2 / ofnat 2
  + snd u * snd v * L.

(** The integral of [f'' * g''] over the intervals the two supports share:
    interval [r] of [f] is interval [r - (idx g - idx f)] of [g] when [f] and
    [g] are windows of one knot sequence. *)
Definition overlap_integral (f g : PP_Cubic) : Qc :=
  fold_left Qcplus
    (map (fun r =>
            let r' := (Z.of_nat r - (idx g - idx f))%Z in
            if ((0 <=? r') && (r' <? 4))%Z
            then linear_product_integral
                   (second_derivative (row (coefs f) r))
                   (second_derivative (row (coefs g) (Z.to_nat r')))
                   (at_ 0 (knots f) (r + 1) - at_ 0 (knots f) r)
            else 0)
         (seq 0 4))
    0.

(** What [differentiate] returns on an object built by the constructor. *)
Definition derived (p : PP_Cubic) : PP_Cubic :=
  mkPP (idx p) (knots p) (map deriv_row (coefs p)).

(** [f] and [g] are windows of one knot sequence: knots at the same
    position of the sequence are equal. *)
Definition aligned (f g : PP_Cubic) : Prop :=
  forall r r' : nat, (r <= 4)%nat -> (r' <= 4)%nat ->
    (idx f + Z.of_nat r = idx g + Z.of_nat r')%Z ->
    at_ 0 (knots f) r = at_ 0 (knots g) r'.

(** The entries of the penalty matrix, as integrals. *)
Definition penalty_cells (basis : list PP_Cubic) : table :=
  map (fun bi => map (fun bj => overlap_integral bi bj) basis) basis.

(** The 11 points 0, 1, ..., 10 of the module's docstring, and the basis
    [get_BSbasis] builds from them with the stand-in table. *)
Definition data11 : list Qc := map ofZ [0; 1; 2; 3; 4; 5; 6; 7; 8; 9; 10]%Z.

(** The object [get_BSbasis] builds at index [i]. *)
Definition basis_at (Bbasis_c : list Qc -> table) (padded : list Qc)
    (i : nat) : PP_Cubic :=
  mkPP (Z.of_nat i) (slice i (i + 5) padded)
       (Bbasis_c (slice i (i + 5) padded)).

Definition basis11 : list PP_Cubic :=
  map (basis_at uniform_basis_c
         (repeat (hd 0 data11) 3 ++ data11 ++ repeat (last data11 0) 3))
      (seq 0 13).

(** The value matrix, entry by entry. *)
Definition value_cells (pts : list Qc) (basis : list PP_Cubic) : table :=
  map (fun x => map (fun b => eval_PP b x) basis) pts.

(** The objects the public operations can produce: those the constructor
    returns and their derivatives. *)
Inductive reachable : PP_Cubic -> Prop :=
| reach_init (i : Z) (ks : pyseq Qc) (c : pyseq (list Qc)) (p : PP_Cubic) :
    __init__ i ks c = Ok p -> reachable p
| reach_differentiate (p p' : PP_Cubic) :
    reachable p -> differentiate p = Ok p' -> reachable p'.

(** The repeated-value input of the specification's edge case. *)
Definition data_repeated : list Qc := map ofZ [0; 0; 0; 1; 1; 1]%Z.

(** The padded knots of [get_BSbasis]: [data_padded] of line 133 for a
    non-empty 1-D array. *)
Definition padded_knots (data : list Qc) : list Qc :=
  repeat (hd 0 data) 3 ++ data ++ repeat (last data 0) 3.

(** The row [eval_PP] uses for a point inside the support: the left piece
    at [knots[1]] and [knots[2]], the right piece at [knots[3]]. *)
Definition chosen_row (ks : list Qc) (x : Qc) : nat :=
  if Qcleb x (at_ 0 ks 1) then 0
  else if Qcleb x (at_ 0 ks 2) then 1
  else if Qcleb (at_ 0 ks 3) x then 3
  else 2.
(* ================================================================== *)
(** * Basic facts *)

Arguments Qcplus : simpl never.
Arguments Qcmult : simpl never.
Arguments Qcminus : simpl never.
Arguments Qcopp : simpl never.
Arguments Qcinv : simpl never.
Arguments Qcdiv : simpl never.
Arguments Qcpower : simpl never.
Arguments Q2Qc : simpl never.
Arguments Qle_bool : simpl never.
Arguments Qc_eq_bool : simpl never.

Lemma Q_eq_dec (x y : Q) : {x = y} + {x <> y}.
Proof. decide equality; [apply Pos.eq_dec | apply Z.eq_dec]. Defined.

Lemma canon_irrel (q : Q) (p1 p2 : Qred q = q) : p1 = p2.
Proof. apply UIP_dec, Q_eq_dec. Qed.

(** Closed equations between values that contain numbers: evaluate both
    sides, then identify the canonicity proofs. *)
Ltac qc_compute :=
  vm_compute; repeat (reflexivity || apply canon_irrel || f_equal).

Lemma Qcleb_le (x y : Qc) : Qcleb x y = true <-> x <= y.
Proof. unfold Qcleb, Qcle. apply Qle_bool_iff. Qed.

Lemma Qcleb_gt (x y : Qc) : Qcleb x y = false <-> y < x.
Proof.
  split; intro H.
  - apply Qcnot_le_lt. intro L. apply Qcleb_le in L. congruence.
  - destruct (Qcleb x y) eqn:E; [|reflexivity].
    apply Qcleb_le in E. exfalso. exact (Qcle_not_lt _ _ E H).
Qed.

Lemma Qcltb_lt (x y : Qc) : Qcltb x y = true <-> x < y.
Proof.
  unfold Qcltb. rewrite negb_true_iff. apply (Qcleb_gt y x).
Qed.

Lemma Qceqb_eq (x y : Qc) : Qceqb x y = true -> x = y.
Proof. apply Qc_eq_bool_correct. Qed.

Lemma bind_ok {A B} (r : result A) (k : A -> result B) (b : B) :
  bind r k = Ok b -> exists a, r = Ok a /\ k a = Ok b.
Proof. destruct r; simpl; [eauto | discriminate]. Qed.

Lemma assert_ok (b : bool) : assert_ b = Ok tt <-> b = true.
Proof. destruct b; simpl; split; congruence. Qed.

Lemma mapM_ext_ok {A B} (f : A -> result B) (g : A -> B) (l : list A) :
  (forall a, In a l -> f a = Ok (g a)) -> mapM f l = Ok (map g l).
Proof.
  induction l as [|a l IH]; intro H; simpl; [reflexivity|].
  rewrite (H a (or_introl eq_refl)). simpl.
  rewrite IH by (intros; apply H; now right). reflexivity.
Qed.

Lemma mapM_ok_inv {A B} (f : A -> result B) (l : list A) (bs : list B) :
  mapM f l = Ok bs ->
  length bs = length l /\
  forall i a, nth_error l i = Some a ->
              exists b, nth_error bs i = Some b /\ f a = Ok b.
Proof.
  revert bs. induction l as [|a l IH]; intros bs H; simpl in H.
  - inversion H; subst. split; [reflexivity|]. intros [|i] ? ?; discriminate.
  - apply bind_ok in H. destruct H as (b & Hb & H).
    apply bind_ok in H. destruct H as (bs' & Hbs & H).
    inversion H; subst. destruct (IH _ Hbs) as [Hl Hn].
    split; [simpl; congruence|].
    intros [|i] a' Ha; simpl in *.
    + inversion Ha; subst. eauto.
    + eauto.
Qed.

(* ------------------------------------------------------------------ *)
(** ** Non-decreasing sequences *)

Lemma sortedb_cons (x : Qc) (l : list Qc) :
  sortedb (x :: l) = true <->
  (forall y, In y l -> x <= y) /\ sortedb l = true.
Proof.
  revert x. induction l as [|y l IH]; intro x.
  - simpl. split; [intros _; split; [intros ? []|reflexivity] | reflexivity].
  - change (sortedb (x :: y :: l)) with (Qcleb x y && sortedb (y :: l)).
    rewrite andb_true_iff, Qcleb_le. split.
    + intros [Hxy Hs]. split; [|exact Hs].
      intros z [<-|Hz]; [exact Hxy|].
      apply (Qcle_trans _ y); [exact Hxy|].
      apply (proj1 (IH y)) in Hs. now apply (proj1 Hs).
    + intros [Hall Hs]. split; [apply Hall; now left | exact Hs].
Qed.

Lemma sortedb_nondecreasing (ks : list Qc) :
  sortedb ks = true <-> nondecreasing ks.
Proof.
  induction ks as [|x l IH].
  - split; [|reflexivity]. intros _ i j _ Hj. simpl in Hj. lia.
  - rewrite sortedb_cons, IH. split.
    + intros [Hall Hl] i j Hij Hj. unfold at_.
      destruct j as [|j].
      * assert (i = 0)%nat by lia. subst. apply Qcle_refl.
      * destruct i as [|i]; simpl.
        -- apply Hall, nth_In. simpl in Hj. lia.
        -- apply Hl; simpl in Hj; lia.
    + intro H. split.
      * intros y Hy. destruct (In_nth _ _ 0 Hy) as (n & Hn & <-).
        apply (H 0%nat (S n)); simpl; lia.
      * intros i j Hij Hj. apply (H (S i) (S j)); simpl; lia.
Qed.

(** The sortedness test of [__init__] counts the descents. *)
Lemma count_gt_sortedb (ks : list Qc) :
  (count_gt (removelast ks) (tl ks) =? 0)%nat = sortedb ks.
Proof.
  induction ks as [|x l IH]; [reflexivity|].
  destruct l as [|y l]; [reflexivity|].
  change (removelast (x :: y :: l)) with (x :: removelast (y :: l)).
  change (tl (x :: y :: l)) with (y :: tl (y :: l)).
  change (sortedb (x :: y :: l)) with (Qcleb x y && sortedb (y :: l)).
  rewrite <- IH. unfold count_gt. simpl combine. simpl filter.
  unfold Qcltb at 1. simpl fst. simpl snd. unfold Qcleb.
  destruct (Qle_bool x y); simpl; reflexivity.
Qed.

(* ------------------------------------------------------------------ *)
(** ** The constructor *)

(** The outcome of the constructor, assertion by assertion. *)
Lemma init_cases (i : Z) (ks : pyseq Qc) (c : pyseq (list Qc)) :
  __init__ i ks c =
  if (length (items ks) =? 5)%nat && is_ndarray ks
  then if is_ndarray c
       then if shape_is 4 4 (items c) && sortedb (items ks)
            then Ok (mkPP i (items ks) (items c))
            else Raise AssertionError
       else Raise AttributeError
  else Raise AssertionError.
Proof.
  unfold __init__, shape_eq. rewrite count_gt_sortedb.
  destruct (length (items ks) =? 5)%nat; simpl; [|reflexivity].
  destruct (is_ndarray ks); simpl; [|reflexivity].
  destruct (is_ndarray c); simpl; [|reflexivity].
  destruct (shape_is 4 4 (items c)); simpl; [|reflexivity].
  destruct (sortedb (items ks)); reflexivity.
Qed.

(** The constructor on a table that is a numpy array. *)
Lemma init_eq (i : Z) (ks : pyseq Qc) (c : table) :
  __init__ i ks (NdArray c) =
  if (length (items ks) =? 5)%nat && is_ndarray ks && shape_is 4 4 c
     && sortedb (items ks)
  then Ok (mkPP i (items ks) c)
  else Raise AssertionError.
Proof.
  rewrite init_cases. cbn [is_ndarray items].
  destruct (length (items ks) =? 5)%nat; simpl; [|reflexivity].
  destruct (is_ndarray ks); reflexivity.
Qed.

Lemma valid_iff (p : PP_Cubic) :
  valid p <->
  length (knots p) = 5%nat /\ shape_is 4 4 (coefs p) = true
  /\ sortedb (knots p) = true.
Proof.
  unfold valid. rewrite init_eq. simpl.
  destruct (Nat.eqb_spec (length (knots p)) 5) as [E|E]; simpl.
  - destruct (shape_is 4 4 (coefs p)); simpl.
    + destruct (sortedb (knots p)); simpl.
      * destruct p; simpl. intuition.
      * split; [discriminate | intuition discriminate].
    + split; [discriminate | intuition discriminate].
  - split; [discriminate | intuition].
Qed.

Lemma init_valid (i : Z) (ks : pyseq Qc) (c : pyseq (list Qc))
    (p : PP_Cubic) :
  __init__ i ks c = Ok p ->
  valid p /\ idx p = i /\ knots p = items ks /\ coefs p = items c
  /\ is_ndarray ks = true.
Proof.
  intro H. pose proof H as H'. rewrite init_cases in H'.
  destruct (length (items ks) =? 5)%nat eqn:E1; simpl in H'; [|discriminate].
  destruct (is_ndarray ks) eqn:E2; simpl in H'; [|discriminate].
  destruct (is_ndarray c) eqn:E5; [|discriminate].
  destruct (shape_is 4 4 (items c)) eqn:E3; simpl in H'; [|discriminate].
  destruct (sortedb (items ks)) eqn:E4; simpl in H'; [|discriminate].
  inversion H'; subst p; simpl. repeat split; try reflexivity.
  apply valid_iff; simpl. apply Nat.eqb_eq in E1. auto.
Qed.

(** The rows of a 4 by 4 table. *)
Lemma shape_4x4_inv (c : table) :
  shape_is 4 4 c = true ->
  exists a0 b0 c0 d0 a1 b1 c1 d1 a2 b2 c2 d2 a3 b3 c3 d3,
    c = [[a0; b0; c0; d0]; [a1; b1; c1; d1];
         [a2; b2; c2; d2]; [a3; b3; c3; d3]].
Proof.
  unfold shape_is. rewrite andb_true_iff. intros [Hl Hr].
  apply Nat.eqb_eq in Hl.
  destruct c as [|r0 [|r1 [|r2 [|r3 [|? ?]]]]]; try discriminate.
  simpl in Hr. repeat rewrite andb_true_iff in Hr.
  destruct Hr as (H0 & H1 & H2 & H3 & _).
  apply Nat.eqb_eq in H0, H1, H2, H3.
  destruct r0 as [|? [|? [|? [|? [|? ?]]]]]; try discriminate.
  destruct r1 as [|? [|? [|? [|? [|? ?]]]]]; try discriminate.
  destruct r2 as [|? [|? [|? [|? [|? ?]]]]]; try discriminate.
  destruct r3 as [|? [|? [|? [|? [|? ?]]]]]; try discriminate.
  repeat eexists.
Qed.

Lemma length5_inv {A} (l : list A) :
  length l = 5%nat -> exists k0 k1 k2 k3 k4, l = [k0; k1; k2; k3; k4].
Proof.
  destruct l as [|? [|? [|? [|? [|? [|? ?]]]]]]; try discriminate.
  repeat eexists.
Qed.

(* ------------------------------------------------------------------ *)
(** ** Differentiation *)

Ltac case_zero :=
  match goal with
  | |- context [Qceqb ?x 0] =>
      let E := fresh "E" in
      destruct (Qceqb x 0) eqn:E; [apply Qceqb_eq in E|]
  end.

Ltac zero_eq :=
  repeat match goal with H : _ * 1 = _ |- _ => rewrite Qcmult_1_r in H end;
  first [ reflexivity
        | congruence
        | repeat match goal with H : _ = 0 |- _ => rewrite H in * end; ring ].

(** What [differentiate] writes into one row: the derivative's coefficients,
    right-aligned over the zeros of [out_coefs]. *)
Lemma deriv_aligned (a b c d : Qc) :
  firstn (4 - length (deriv [a; b; c; d])) [0; 0; 0; 0] ++ deriv [a; b; c; d]
  = deriv_row [a; b; c; d].
Proof.
  unfold deriv, deriv_row, poly1d, at_. cbn [nth].
  change (ofnat 3) with (ofnat (length [b; c; d])).
  change (ofnat 2) with (ofnat (length [c; d])).
  cbn [trim_zeros].
  repeat (case_zero; cbn [trim_zeros scale_desc length firstn repeat app Nat.sub]);
    change (ofnat 1) with 1 in *;
    repeat (f_equal; try zero_eq).
Qed.

Lemma deriv_length_le (a b c d : Qc) :
  (length (deriv [a; b; c; d]) <=? 4)%nat = true.
Proof.
  unfold deriv, poly1d. cbn [trim_zeros].
  repeat (case_zero; cbn [trim_zeros scale_desc length]);
    reflexivity.
Qed.

Lemma differentiate_coefs_spec (c : table) :
  shape_is 4 4 c = true -> differentiate_coefs c = Ok (map deriv_row c).
Proof.
  intro H.
  destruct (shape_4x4_inv c H)
    as (a0 & b0 & c0 & d0 & a1 & b1 & c1 & d1 & a2 & b2 & c2 & d2
        & a3 & b3 & c3 & d3 & ->).
  unfold differentiate_coefs, zeros.
  cbn [seq foldM getrow nth_error bind].
  unfold set_row_tail.
  rewrite !deriv_length_le.
  cbn [bind repeat firstn skipn app map].
  rewrite !deriv_aligned. reflexivity.
Qed.

Lemma deriv_row_length (r : list Qc) : length (deriv_row r) = 4%nat.
Proof. reflexivity. Qed.

Lemma shape_map_deriv_row (c : table) :
  shape_is 4 4 c = true -> shape_is 4 4 (map deriv_row c) = true.
Proof.
  unfold shape_is. rewrite !andb_true_iff, length_map. intros [Hl _].
  split; [exact Hl|]. rewrite forallb_forall. intros r Hr.
  apply in_map_iff in Hr. destruct Hr as (r0 & <- & _). reflexivity.
Qed.

(** On an object built by the constructor, [differentiate] succeeds and
    returns the row-wise derivative over the same knots and index. *)
Lemma differentiate_ok (p : PP_Cubic) :
  valid p ->
  differentiate p = Ok (mkPP (idx p) (knots p) (map deriv_row (coefs p))).
Proof.
  intro Hv. apply valid_iff in Hv. destruct Hv as (Hl & Hs & Hk).
  unfold differentiate.
  rewrite differentiate_coefs_spec by exact Hs.
  cbn [bind]. rewrite init_eq. simpl.
  rewrite Hl, (shape_map_deriv_row _ Hs), Hk. reflexivity.
Qed.

Lemma differentiate_valid (p : PP_Cubic) :
  valid p -> valid (mkPP (idx p) (knots p) (map deriv_row (coefs p))).
Proof.
  intro Hv. apply valid_iff in Hv. destruct Hv as (Hl & Hs & Hk).
  apply valid_iff. simpl. auto using shape_map_deriv_row.
Qed.

(** Off the constructor's 4 by 4 tables: a row that is missing stops the loop
    at line 111 with [IndexError]; a row whose derivative has more than 4
    coefficients stops it at line 112 with [ValueError]. *)
Example differentiate_short_table :
  differentiate (mkPP 0 unit_knots (firstn 3 uniform_c)) = Raise IndexError.
Proof. reflexivity. Qed.

Example differentiate_long_row :
  differentiate
    (mkPP 0 unit_knots
          (repeat [ofZ 1; ofZ 0; ofZ 0; ofZ 0; ofZ 0; ofZ 0] 4))
  = Raise ValueError.
Proof. reflexivity. Qed.

Lemma row_map(f : list Qc -> list Qc) (c : table) (i : nat) :
  (i < length c)%nat -> row (map f c) i = f (row c i).
Proof.
  intro H. unfold row, at_.
  rewrite (nth_indep (map f c) [] (f [])) by (rewrite length_map; exact H).
  apply map_nth.
Qed.

Lemma shape_is_length (r k : nat) (c : table) :
  shape_is r k c = true -> length c = r.
Proof.
  unfold shape_is. rewrite andb_true_iff. intros [H _]. now apply Nat.eqb_eq.
Qed.

(** One piece of [eval_PP] is the cubic of its row in the local variable. *)
Lemma piece_cubic (p : PP_Cubic) (r : nat) (x : Qc) :
  piece p r x = cubic (row (coefs p) r) (x - at_ 0 (knots p) r).
Proof.
  unfold piece, cubic, cell. cbn [seq fold_left Nat.sub].
  cbv beta iota delta [Qcpower]. ring.
Qed.

(** [deriv_row] is the derivative: the first-order term of the expansion of
    the cubic around any point, with a polynomial remainder. *)
Lemma deriv_row_expansion (r : list Qc) (t h : Qc) :
  cubic r (t + h) =
  cubic r t + h * cubic (deriv_row r) t
  + h * h * (ofnat 3 * at_ 0 r 0 * t + at_ 0 r 1 + at_ 0 r 0 * h).
Proof.
  unfold cubic, deriv_row, at_. cbn [nth].
  change (ofnat 3) with (1 + 1 + 1). change (ofnat 2) with (1 + 1).
  cbv beta iota delta [Qcpower]. ring.
Qed.

Lemma cubic_deriv4 (r : list Qc) (t : Qc) :
  cubic (deriv_row (deriv_row (deriv_row (deriv_row r)))) t = 0.
Proof. unfold cubic, deriv_row, at_. cbn [nth]. ring. Qed.

(** Every branch of [eval_PP] is 0 or a piece with row index at most 3. *)
Lemma eval_PP_cases (p : PP_Cubic) (x : Qc) :
  eval_PP p x = 0 \/ exists r, (r <= 3)%nat /\ eval_PP p x = piece p r x.
Proof.
  unfold eval_PP.
  destruct (negb _); [now left|].
  destruct (_ && _); [right; exists 0%nat; split; [lia|reflexivity]|].
  destruct (_ && _); [right; exists 1%nat; split; [lia|reflexivity]|].
  right. eexists. split; [|reflexivity]. lia.
Qed.

Lemma valid_pp_uniform : valid pp_uniform.
Proof. unfold valid. qc_compute. Qed.

(* ================================================================== *)
(** * The constructor's validation (C7) *)

(** C7, as the code has it, for [knots] given as a Python list or a numpy
    array and [coefs] given as a nested Python list or a numpy array.
    [__init__] succeeds exactly when [knots] is a numpy array of 5
    non-decreasing entries and [coefs] is a 4 by 4 numpy array, and then
    stores its arguments.  It fails with an [AssertionError] when [knots]
    has not 5 entries or is not a numpy array (lines 39-40) and, for a numpy
    array [coefs], when [coefs] is not 4 by 4 or [knots] is not sorted
    (lines 41-42).  When [knots] passes lines 39-40 and [coefs] is a nested
    list, [coefs.shape] on line 41 fails with an [AttributeError].  The
    three cases cover every input. *)
Theorem init_spec (i : Z) (ks : pyseq Qc) (c : pyseq (list Qc)) :
  (is_ndarray ks = true /\ length (items ks) = 5%nat
   /\ nondecreasing (items ks)
   /\ is_ndarray c = true /\ shape_is 4 4 (items c) = true ->
   __init__ i ks c = Ok (mkPP i (items ks) (items c)))
  /\
  (length (items ks) <> 5%nat \/ is_ndarray ks = false
   \/ (is_ndarray c = true
       /\ (shape_is 4 4 (items c) = false \/ ~ nondecreasing (items ks))) ->
   __init__ i ks c = Raise AssertionError)
  /\
  (length (items ks) = 5%nat /\ is_ndarray ks = true
   /\ is_ndarray c = false ->
   __init__ i ks c = Raise AttributeError).
Proof.
  rewrite init_cases. split; [|split].
  - intros (Ha & Hl & Hs & Hc & Hsh).
    apply sortedb_nondecreasing in Hs.
    rewrite Ha, Hl, Hs, Hc, Hsh. reflexivity.
  - intros [Hl | [Ha | (Hc & [Hsh | Hs])]].
    + apply Nat.eqb_neq in Hl. rewrite Hl. reflexivity.
    + rewrite Ha, andb_false_r. reflexivity.
    + rewrite Hc, Hsh. destruct (_ && _); reflexivity.
    + rewrite Hc. destruct (sortedb (items ks)) eqn:E.
      * exfalso. apply Hs. now apply sortedb_nondecreasing.
      * rewrite andb_false_r. destruct (_ && _); reflexivity.
  - intros (Hl & Ha & Hc). rewrite Hl, Ha, Hc. reflexivity.
Qed.

Lemma init_spec_witness :
  __init__ 0 (NdArray unit_knots) (NdArray uniform_c) = Ok pp_uniform.
Proof.
  apply (proj1 (init_spec 0 (NdArray unit_knots) (NdArray uniform_c))).
  repeat split.
  apply sortedb_nondecreasing. vm_compute. reflexivity.
Defined.

(** C7 as stated fails: a Python list of 5 sorted knots with a 4 by 4 numpy
    table meets the three conditions of the claim, and the constructor
    rejects it (line 40, [assert(type(knots) == np.ndarray)]). *)
Lemma init_rejects_python_list :
  length (items (PyList unit_knots)) = 5%nat
  /\ nondecreasing (items (PyList unit_knots))
  /\ is_ndarray (NdArray uniform_c) = true
  /\ shape_is 4 4 (items (NdArray uniform_c)) = true
  /\ __init__ 0 (PyList unit_knots) (NdArray uniform_c)
     = Raise AssertionError.
Proof.
  repeat split.
  apply sortedb_nondecreasing. vm_compute. reflexivity.
Qed.

(** A 4 by 4 table given as a nested list has no [shape]: with knots that
    pass lines 39-40 the constructor fails on line 41, sorted knots or
    not. *)
Example init_nested_list_table :
  __init__ 0 (NdArray unit_knots) (PyList uniform_c) = Raise AttributeError
  /\ __init__ 0 (NdArray (rev unit_knots)) (PyList uniform_c)
     = Raise AttributeError.
Proof. split; reflexivity. Qed.

(* ================================================================== *)
(** * Differentiation (C5, C10) *)

(** C10: on an object built by the constructor, [differentiate] returns an
    object that the validating constructor accepts again ([valid]): the
    same 5 non-decreasing knots, the same index, a 4 by 4 table; and so
    does the second derivative that [__mod__] forms. *)
Theorem differentiate_preserves_invariants (p : PP_Cubic) :
  valid p ->
  exists p' p'',
    differentiate p = Ok p' /\ differentiate p' = Ok p''
    /\ valid p' /\ valid p''
    /\ knots p' = knots p /\ knots p'' = knots p
    /\ idx p' = idx p /\ idx p'' = idx p
    /\ length (knots p') = 5%nat /\ nondecreasing (knots p')
    /\ shape_is 4 4 (coefs p') = true /\ shape_is 4 4 (coefs p'') = true.
Proof.
  intro Hv.
  pose proof (differentiate_valid p Hv) as Hv1.
  pose proof (differentiate_valid _ Hv1) as Hv2.
  eexists. eexists.
  split; [apply differentiate_ok, Hv|].
  split; [apply (differentiate_ok _ Hv1)|].
  split; [exact Hv1|]. split; [exact Hv2|]. simpl.
  apply valid_iff in Hv. destruct Hv as (Hl & Hs & Hk).
  repeat split; auto using shape_map_deriv_row.
  now apply sortedb_nondecreasing.
Qed.

(** The invariant holds of every reachable object, by induction on how it
    was produced. *)
Lemma reachable_valid (p : PP_Cubic) : reachable p -> valid p.
Proof.
  induction 1 as [i ks c p H | p p' _ IH H].
  - now apply init_valid in H.
  - rewrite (differentiate_ok p IH) in H. inversion H; subst p'.
    now apply differentiate_valid.
Qed.

Lemma differentiate_preserves_invariants_witness :
  valid pp_uniform /\
  exists p', differentiate pp_uniform = Ok p' /\ valid p'
             /\ knots p' = knots pp_uniform.
Proof.
  split; [exact valid_pp_uniform|].
  destruct (differentiate_preserves_invariants pp_uniform valid_pp_uniform)
    as (p' & p'' & H1 & _ & Hv & _ & Hk & _).
  exists p'. auto.
Defined.

(** C5: [differentiate] returns an object over the same knots and index
    whose rows are the derivatives of the receiver's rows ([deriv_row], the
    linear term of the cubic's expansion); after two applications the two
    leading columns are zero; after four the function evaluates to 0 at
    every point.  [differentiate] is a function of its receiver, which is a
    value here and is left as it is. *)
Theorem differentiate_spec (p : PP_Cubic) :
  valid p ->
  exists p1 p2 p3 p4,
    differentiate p = Ok p1 /\ differentiate p1 = Ok p2
    /\ differentiate p2 = Ok p3 /\ differentiate p3 = Ok p4
    /\ knots p1 = knots p /\ idx p1 = idx p
    /\ (forall i, (i < 4)%nat ->
          row (coefs p1) i = deriv_row (row (coefs p) i))
    /\ (forall i t h, (i < 4)%nat ->
          cubic (row (coefs p) i) (t + h) =
          cubic (row (coefs p) i) t + h * cubic (row (coefs p1) i) t
          + h * h * (ofnat 3 * cell (coefs p) i 0 * t + cell (coefs p) i 1
                     + cell (coefs p) i 0 * h))
    /\ (forall i, (i < 4)%nat ->
          cell (coefs p2) i 0 = 0 /\ cell (coefs p2) i 1 = 0)
    /\ (forall x, eval_PP p4 x = 0)
    /\ (forall pts, __call__ p4 (NdArray pts) = Ok (map (fun _ => 0) pts)).
Proof.
  intro Hv.
  pose proof (differentiate_valid p Hv) as Hv1.
  pose proof (differentiate_valid _ Hv1) as Hv2.
  pose proof (differentiate_valid _ Hv2) as Hv3.
  do 4 eexists.
  split; [apply differentiate_ok, Hv|].
  split; [apply (differentiate_ok _ Hv1)|].
  split; [apply (differentiate_ok _ Hv2)|].
  split; [apply (differentiate_ok _ Hv3)|]. simpl.
  apply valid_iff in Hv. destruct Hv as (Hl & Hs & Hk).
  pose proof (shape_is_length _ _ _ Hs) as Hlen.
  assert (Hrow : forall i, (i < 4)%nat ->
            row (map deriv_row (coefs p)) i = deriv_row (row (coefs p) i)).
  { intros i Hi. apply row_map. lia. }
  assert (Hz : forall x,
            eval_PP (mkPP (idx p) (knots p)
              (map deriv_row (map deriv_row (map deriv_row
                 (map deriv_row (coefs p)))))) x = 0).
  { intro x.
    destruct (eval_PP_cases
                (mkPP (idx p) (knots p)
                   (map deriv_row (map deriv_row (map deriv_row
                      (map deriv_row (coefs p)))))) x)
      as [E | (r & Hr & E)]; [exact E|].
    rewrite E, piece_cubic. simpl coefs.
    rewrite !row_map by (rewrite ?length_map; lia).
    apply cubic_deriv4. }
  repeat split; auto.
  - intros i t h Hi. rewrite (Hrow i Hi). apply deriv_row_expansion.
  - unfold cell. rewrite !row_map by (rewrite ?length_map; lia). reflexivity.
  - unfold cell. rewrite !row_map by (rewrite ?length_map; lia).
    unfold deriv_row, at_. cbn [nth]. ring.
  - intro pts. unfold __call__. simpl.
    f_equal. apply map_ext. exact Hz.
Qed.

Lemma differentiate_spec_witness :
  valid pp_uniform /\
  exists p1 p4, differentiate pp_uniform = Ok p1
                /\ knots p1 = knots pp_uniform
                /\ forall x, eval_PP p4 x = 0.
Proof.
  split; [exact valid_pp_uniform|].
  destruct (differentiate_spec pp_uniform valid_pp_uniform)
    as (p1 & p2 & p3 & p4 & H1 & _ & _ & _ & Hk & _ & _ & _ & _ & Hz & _).
  exists p1, p4. auto.
Defined.

(* ================================================================== *)
(** * Evaluation (C3) *)

Lemma sorted5_inv (k0 k1 k2 k3 k4 : Qc) :
  sortedb [k0; k1; k2; k3; k4] = true ->
  k0 <= k1 /\ k1 <= k2 /\ k2 <= k3 /\ k3 <= k4.
Proof.
  cbn [sortedb]. rewrite !andb_true_iff, !Qcleb_le. tauto.
Qed.

Lemma eval_PP_outside (p : PP_Cubic) (x : Qc) :
  x < at_ 0 (knots p) 0 \/ at_ 0 (knots p) 4 < x -> eval_PP p x = 0.
Proof.
  intro H. unfold eval_PP.
  destruct H as [H | H]; apply Qcleb_gt in H; rewrite H;
    rewrite ?andb_false_r; reflexivity.
Qed.

Lemma eval_PP_inside (p : PP_Cubic) (x : Qc) :
  valid p ->
  at_ 0 (knots p) 0 <= x -> x <= at_ 0 (knots p) 4 ->
  exists i, (i < 4)%nat
            /\ at_ 0 (knots p) i <= x /\ x <= at_ 0 (knots p) (i + 1)
            /\ eval_PP p x = cubic (row (coefs p) i) (x - at_ 0 (knots p) i).
Proof.
  intros Hv H0 H4. apply valid_iff in Hv. destruct Hv as (Hl & _ & Hk).
  destruct (length5_inv _ Hl) as (k0 & k1 & k2 & k3 & k4 & Eks).
  unfold eval_PP. rewrite Eks in *. unfold at_ in *. cbn [nth] in *.
  destruct (sorted5_inv _ _ _ _ _ Hk) as (L01 & L12 & L23 & L34).
  rewrite (proj2 (Qcleb_le _ _) H0), (proj2 (Qcleb_le _ _) H4).
  cbn [andb negb].
  destruct (Qcleb x k1) eqn:E1.
  { apply Qcleb_le in E1. exists 0%nat. rewrite piece_cubic, Eks.
    repeat split; auto. }
  apply Qcleb_gt in E1.
  assert (L1 : k1 <= x) by now apply Qclt_le_weak.
  rewrite (proj2 (Qcleb_le _ _) L1). cbn [andb].
  destruct (Qcleb x k2) eqn:E2.
  { apply Qcleb_le in E2. exists 1%nat. rewrite piece_cubic, Eks.
    repeat split; auto. }
  apply Qcleb_gt in E2.
  assert (L2 : k2 <= x) by now apply Qclt_le_weak.
  unfold count_le. cbn [filter].
  rewrite (proj2 (Qcleb_le _ _) H0), (proj2 (Qcleb_le _ _) L1),
          (proj2 (Qcleb_le _ _) L2).
  destruct (Qcleb k3 x) eqn:E3.
  - apply Qcleb_le in E3.
    exists 3%nat. rewrite piece_cubic, Eks.
    destruct (Qcleb k4 x); cbn [length]; repeat split; auto.
  - apply Qcleb_gt in E3.
    assert (E4 : Qcleb k4 x = false).
    { apply Qcleb_gt. now apply (Qclt_le_trans _ k3). }
    rewrite E4. cbn [length].
    exists 2%nat. rewrite piece_cubic, Eks.
    repeat split; auto. now apply Qclt_le_weak.
Qed.

Lemma at_map {A B} (f : A -> B) (da : A) (db : B) (l : list A) (j : nat) :
  (j < length l)%nat -> at_ db (map f l) j = f (at_ da l j).
Proof.
  intro H. unfold at_.
  rewrite (nth_indep (map f l) db (f da)) by (rewrite length_map; exact H).
  apply map_nth.
Qed.

(** C3: on an object built by the constructor and an array of points,
    [__call__] returns one number per point; a point outside
    [[knots[0], knots[4]]] gives 0, and a point inside gives the cubic of
    the row of an interval [[knots[i], knots[i+1]]] that contains it,
    evaluated at [x - knots[i]]. *)
Theorem call_spec (p : PP_Cubic) (pts : list Qc) :
  valid p ->
  exists ys,
    __call__ p (NdArray pts) = Ok ys
    /\ length ys = length pts
    /\ forall j, (j < length pts)%nat ->
         (at_ 0 pts j < at_ 0 (knots p) 0 \/ at_ 0 (knots p) 4 < at_ 0 pts j ->
          at_ 0 ys j = 0)
         /\
         (at_ 0 (knots p) 0 <= at_ 0 pts j /\ at_ 0 pts j <= at_ 0 (knots p) 4 ->
          exists i, (i < 4)%nat
            /\ at_ 0 (knots p) i <= at_ 0 pts j
            /\ at_ 0 pts j <= at_ 0 (knots p) (i + 1)
            /\ at_ 0 ys j =
               cubic (row (coefs p) i) (at_ 0 pts j - at_ 0 (knots p) i)).
Proof.
  intro Hv. exists (map (eval_PP p) pts).
  split; [reflexivity|]. split; [apply length_map|].
  intros j Hj. rewrite (at_map (eval_PP p) 0 0 pts j Hj). split.
  - apply eval_PP_outside.
  - intros [H0 H4]. now apply eval_PP_inside.
Qed.

Lemma call_spec_witness :
  valid pp_uniform /\
  exists ys, __call__ pp_uniform (NdArray [ofZ (-1); Q2Qc (1 # 2); ofZ 4; ofZ 5])
             = Ok ys /\ length ys = 4%nat.
Proof.
  split; [exact valid_pp_uniform|].
  destruct (call_spec pp_uniform [ofZ (-1); Q2Qc (1 # 2); ofZ 4; ofZ 5]
              valid_pp_uniform) as (ys & H & Hl & _).
  exists ys. auto.
Defined.

(** The values of the uniform B-spline at -1, 1/2, 1, 2, 4 and 5. *)
Example call_uniform :
  __call__ pp_uniform
    (NdArray [ofZ (-1); Q2Qc (1 # 2); ofZ 1; ofZ 2; ofZ 4; ofZ 5])
  = Ok [0; Q2Qc (1 # 48); Q2Qc (1 # 6); Q2Qc (2 # 3); 0; 0].
Proof. qc_compute. Qed.

(* ================================================================== *)
(** * Basis construction (C4) *)

Lemma sortedb_app (l1 l2 : list Qc) :
  sortedb (l1 ++ l2) = true <->
  sortedb l1 = true /\ sortedb l2 = true
  /\ forall x y, In x l1 -> In y l2 -> x <= y.
Proof.
  induction l1 as [|a l1 IH].
  - simpl. split; [intro H; repeat split; [exact H | intros ? ? []] | tauto].
  - change ((a :: l1) ++ l2) with (a :: (l1 ++ l2)).
    rewrite !sortedb_cons, IH. split.
    + intros (Ha & H1 & H2 & H12). repeat split; auto.
      * intros y Hy. apply Ha, in_or_app. now left.
      * intros x y [<-|Hx] Hy; [apply Ha, in_or_app; now right | auto].
    + intros ((Ha & H1) & H2 & H12). repeat split; auto.
      * intros y Hy. apply in_app_or in Hy. destruct Hy as [Hy|Hy]; auto.
        apply H12; [now left | exact Hy].
      * intros x y Hx Hy. apply H12; [now right | exact Hy].
Qed.

Lemma sortedb_slice (i j : nat) (l : list Qc) :
  sortedb l = true -> sortedb (slice i j l) = true.
Proof.
  intro H. unfold slice.
  rewrite <- (firstn_skipn i l) in H. apply sortedb_app in H.
  destruct H as (_ & H & _).
  rewrite <- (firstn_skipn (j - i) (skipn i l)) in H.
  apply sortedb_app in H. tauto.
Qed.

Lemma sortedb_le_last (l : list Qc) (x d : Qc) :
  sortedb l = true -> In x l -> x <= last l d.
Proof.
  revert x. induction l as [|a l IH]; intros x Hs Hx; [destruct Hx|].
  apply sortedb_cons in Hs. destruct Hs as [Ha Hl].
  destruct l as [|b l].
  - destruct Hx as [<-|[]]. apply Qcle_refl.
  - change (last (a :: b :: l) d) with (last (b :: l) d).
    destruct Hx as [<-|Hx]; [|now apply IH].
    apply (Qcle_trans _ b); [apply Ha; now left | apply IH; [exact Hl | now left]].
Qed.

Lemma last_in {A} (l : list A) (d : A) : l <> [] -> In (last l d) l.
Proof.
  induction l as [|a l IH]; [congruence|]. intros _.
  destruct l as [|b l]; [now left|]. right. apply IH. discriminate.
Qed.

(** The padded knots of sorted data are sorted. *)
Lemma sortedb_padded (data : list Qc) :
  sortedb data = true ->
  sortedb (repeat (hd 0 data) 3 ++ data ++ repeat (last data 0) 3) = true.
Proof.
  intro Hs. destruct data as [|h t]; [reflexivity|].
  set (l := last (h :: t) 0). cbn [hd repeat].
  assert (Hh : forall y, In y (h :: t) -> h <= y).
  { intros y [<-|Hy]; [apply Qcle_refl|].
    apply sortedb_cons in Hs. now apply (proj1 Hs). }
  assert (Hl : forall x, In x (h :: t) -> x <= l).
  { intros x Hx. now apply sortedb_le_last. }
  assert (Hhl : h <= l) by (apply Hh, last_in; discriminate).
  apply sortedb_app. split; [|split].
  - cbn [sortedb]. rewrite !(proj2 (Qcleb_le h h) (Qcle_refl h)). reflexivity.
  - apply sortedb_app. split; [exact Hs|]. split.
    + cbn [sortedb]. rewrite !(proj2 (Qcleb_le l l) (Qcle_refl l)). reflexivity.
    + intros x y Hx Hy.
      assert (y = l) by (simpl in Hy; intuition congruence). subst y.
      now apply Hl.
  - intros x y Hx Hy.
    assert (x = h) by (simpl in Hx; intuition congruence). subst x.
    apply in_app_or in Hy. destruct Hy as [Hy|Hy]; [now apply Hh|].
    assert (y = l) by (simpl in Hy; intuition congruence). now subst y.
Qed.

Lemma nth_error_last {A} (l : list A) (d : A) :
  l <> [] -> nth_error l (length l - 1) = Some (last l d).
Proof.
  induction l as [|a l IH]; [congruence|]. intros _.
  destruct l as [|b l]; [reflexivity|].
  change (last (a :: b :: l) d) with (last (b :: l) d).
  rewrite <- IH by discriminate. simpl. rewrite Nat.sub_0_r. reflexivity.
Qed.

(** Lines 132-133 on an array with at least one entry along its first
    axis: the padding, whatever the entries are. *)
Lemma padded_ok {A} (d : A) (data : list A) :
  data <> [] ->
  get_BSbasis_padded (NdArray data)
  = Ok (repeat (hd d data) 3 ++ data ++ repeat (last data d) 3).
Proof.
  intro Hne. unfold get_BSbasis_padded, getitem. cbn [is_ndarray assert_ bind items].
  assert (Hlen : (0 < length data)%nat).
  { destruct data; [congruence | simpl; lia]. }
  change (0 <? 0)%Z with false. change (-1 <? 0)%Z with true. cbv iota.
  replace ((0 <=? 0) && (0 <? Z.of_nat (length data)))%Z with true
    by (symmetry; apply andb_true_iff; split; [reflexivity | apply Z.ltb_lt; lia]).
  replace ((0 <=? Z.of_nat (length data) + -1)
           && (Z.of_nat (length data) + -1 <? Z.of_nat (length data)))%Z
    with true
    by (symmetry; apply andb_true_iff; split;
        [apply Z.leb_le; lia | apply Z.ltb_lt; lia]).
  replace (Z.to_nat (Z.of_nat (length data) + -1)) with (length data - 1)%nat
    by lia.
  rewrite (nth_error_last data d Hne).
  destruct data as [|a data]; [congruence|]. reflexivity.
Qed.

Lemma slice_length {A} (i : nat) (l : list A) :
  (i + 5 <= length l)%nat -> length (slice i (i + 5) l) = 5%nat.
Proof.
  intro H. unfold slice. rewrite length_firstn, length_skipn. lia.
Qed.

Section BasisConstruction.

Variable Bbasis_c : list Qc -> table.

(** scipy returns one row of 4 coefficients for each of the 4 intervals of
    a 5-knot window. *)
Hypothesis Bbasis_c_shape :
  forall w, length w = 5%nat -> sortedb w = true ->
            shape_is 4 4 (Bbasis_c w) = true.

Lemma get_BSbasis_ok (data : list Qc) :
  data <> [] -> sortedb data = true ->
  get_BSbasis Bbasis_c (NdArray data)
  = Ok (map (basis_at Bbasis_c
               (repeat (hd 0 data) 3 ++ data ++ repeat (last data 0) 3))
            (seq 0 (length data + 2))).
Proof.
  intros Hne Hs. unfold get_BSbasis.
  rewrite (padded_ok 0 data Hne). cbn [bind items].
  replace (Z.to_nat (Z.of_nat (length data) - 2 + 4))
    with (length data + 2)%nat by lia.
  apply mapM_ext_ok. intros i Hi. apply in_seq in Hi.
  set (padded := repeat (hd 0 data) 3 ++ data ++ repeat (last data 0) 3).
  assert (Hlen : length padded = (length data + 6)%nat).
  { unfold padded. rewrite !length_app, !repeat_length. lia. }
  assert (Hw : length (slice i (i + 5) padded) = 5%nat)
    by (apply slice_length; lia).
  assert (Hsw : sortedb (slice i (i + 5) padded) = true)
    by (apply sortedb_slice, sortedb_padded, Hs).
  rewrite init_eq. cbn [items is_ndarray].
  rewrite Hw, Hsw, (Bbasis_c_shape _ Hw Hsw). reflexivity.
Qed.

End BasisConstruction.

(** C4: on a sorted 1-D array of [N >= 2] numbers, [get_BSbasis] pads with
    3 copies of the first and of the last value ([N + 6] knots) and returns
    [N + 2] objects; the one at position [i] has index [i], the knots
    [padded[i:i+5]] and the table scipy computes for that window.  The
    hypothesis on [Bbasis_c] is what scipy provides: a 4 by 4 table for
    every sorted window of 5 knots. *)
Theorem get_BSbasis_spec (Bbasis_c : list Qc -> table) (data : list Qc) :
  (forall w, length w = 5%nat -> sortedb w = true ->
             shape_is 4 4 (Bbasis_c w) = true) ->
  (2 <= length data)%nat ->
  nondecreasing data ->
  exists padded basis,
    padded = repeat (hd 0 data) 3 ++ data ++ repeat (last data 0) 3
    /\ get_BSbasis_padded (NdArray data) = Ok padded
    /\ length padded = (length data + 6)%nat
    /\ get_BSbasis Bbasis_c (NdArray data) = Ok basis
    /\ length basis = (length data + 2)%nat
    /\ forall i, (i < length data + 2)%nat ->
         exists p, nth_error basis i = Some p
                   /\ idx p = Z.of_nat i
                   /\ knots p = slice i (i + 5) padded
                   /\ coefs p = Bbasis_c (slice i (i + 5) padded).
Proof.
  intros HB HN Hs. apply sortedb_nondecreasing in Hs.
  assert (Hne : data <> []) by (destruct data; [simpl in HN; lia | discriminate]).
  eexists. eexists. split; [reflexivity|].
  split; [apply padded_ok, Hne|].
  split; [rewrite !length_app, !repeat_length; lia|].
  split; [apply get_BSbasis_ok; assumption|].
  split; [rewrite length_map, length_seq; reflexivity|].
  intros i Hi. eexists. split.
  - rewrite nth_error_map, nth_error_seq.
    destruct (Nat.ltb_spec i (length data + 2)); [reflexivity | lia].
  - repeat split.
Qed.

(** The 11-point input gives exactly 13 basis functions. *)
Lemma get_BSbasis_spec_witness :
  (2 <= length data11)%nat /\ nondecreasing data11 /\
  exists basis, get_BSbasis uniform_basis_c (NdArray data11) = Ok basis
                /\ length basis = 13%nat.
Proof.
  split; [vm_compute; lia|].
  assert (Hs : nondecreasing data11)
    by (apply sortedb_nondecreasing; vm_compute; reflexivity).
  split; [exact Hs|].
  destruct (get_BSbasis_spec uniform_basis_c data11)
    as (padded & basis & _ & _ & _ & Hb & Hl & _).
  - intros w _ _. reflexivity.
  - vm_compute. lia.
  - exact Hs.
  - exists basis. split; [exact Hb | exact Hl].
Defined.

(* ================================================================== *)
(** * Product-Integrate (C1, C2) *)

(** ** Integration of one row *)

Lemma polyval_trim_zeros (c : list Qc) (x : Qc) :
  polyval (trim_zeros c) x = polyval c x.
Proof.
  induction c as [|a c IH]; [reflexivity|].
  cbn [trim_zeros]. destruct (Qceqb a 0) eqn:E; [|reflexivity].
  apply Qceqb_eq in E. subst a. rewrite IH.
  unfold polyval. cbn [fold_left].
  replace (0 * x + 0) with 0 by ring. reflexivity.
Qed.

Lemma polyval_poly1d (c : list Qc) (x : Qc) :
  polyval (poly1d c) x = polyval c x.
Proof.
  rewrite <- (polyval_trim_zeros c x). unfold poly1d.
  destruct (trim_zeros c); [|reflexivity].
  unfold polyval. cbn [fold_left]. ring.
Qed.

Lemma polyval_divide_trim (c : list Qc) (x : Qc) :
  polyval (divide_desc (trim_zeros c) ++ [0]) x
  = polyval (divide_desc c ++ [0]) x.
Proof.
  induction c as [|a c IH]; [reflexivity|].
  cbn [trim_zeros]. destruct (Qceqb a 0) eqn:E; [|reflexivity].
  apply Qceqb_eq in E. subst a. rewrite IH.
  unfold polyval. cbn [divide_desc app fold_left].
  replace (0 * x + 0 / ofnat (length (0 :: c))) with 0
    by (unfold Qcdiv; ring).
  reflexivity.
Qed.

(** The value of the antiderivative does not depend on the trimming of
    leading zeros that [poly1d] performs. *)
Lemma polyval_integ (c : list Qc) (x : Qc) :
  polyval (integ c) x = polyval (divide_desc c ++ [0]) x.
Proof.
  unfold integ. rewrite polyval_poly1d.
  transitivity (polyval (divide_desc (trim_zeros c) ++ [0]) x);
    [|apply polyval_divide_trim].
  unfold poly1d. destruct (trim_zeros c); [|reflexivity].
  unfold polyval. cbn [divide_desc app fold_left length].
  unfold Qcdiv. ring.
Qed.

Lemma ofnat_neq0 (n : nat) : ofnat (S n) <> 0.
Proof.
  unfold ofnat, ofZ. intro H. apply Q2Qc_eq_iff in H.
  unfold Qeq in H. simpl in H. lia.
Qed.

Lemma Qcinv_1 : / 1 = 1.
Proof. apply Qc_is_canon. reflexivity. Qed.

(** ** The early return (C2) *)

Lemma mod_far (f g : PP_Cubic) :
  (3 < Z.abs (idx f - idx g))%Z -> __mod__ f g = ([], Ok 0).
Proof.
  intro H. unfold __mod__.
  rewrite (proj2 (Z.ltb_lt _ _) H). reflexivity.
Qed.

Lemma differentiate_t_ok (p : PP_Cubic) :
  valid p -> differentiate_t p = ([OpDifferentiate], Ok (derived p)).
Proof.
  intro Hv. unfold differentiate_t, lift, tick.
  rewrite (differentiate_ok p Hv). reflexivity.
Qed.

Lemma derived_valid (p : PP_Cubic) : valid p -> valid (derived p).
Proof. apply differentiate_valid. Qed.

(** ** The value [__mod__] computes *)

Ltac arith_normalise :=
  cbv - [Qcplus Qcmult Qcminus Qcopp Qcinv Qcdiv Q2Qc ofnat polyval integ];
  rewrite ?polyval_integ;
  cbv - [Qcplus Qcmult Qcminus Qcopp Qcinv Qcdiv Q2Qc ofnat];
  change (ofnat 1) with 1; unfold Qcdiv; rewrite ?Qcinv_1.

Ltac decide_branches :=
  repeat match goal with
         | |- context [Z.ltb ?a ?b] => destruct (Z.ltb_spec a b); try lia
         | |- context [Z.eqb ?a ?b] => destruct (Z.eqb_spec a b); try lia
         end.

(** One offset [idx g - idx f = d] with [|d| <= 3]. *)
Ltac mod_offset Hf Hg Hd :=
  let f := match type of Hd with (idx _ - idx ?f = _)%Z => f end in
  let g := match type of Hd with (idx ?g - idx _ = _)%Z => g end in
  let d := match type of Hd with (_ = ?d)%Z => d end in
  unfold __mod__;
  replace (idx f - idx g)%Z with (- d)%Z by lia;
  change (3 <? Z.abs (- d))%Z with false; cbv iota;
  rewrite (differentiate_t_ok f Hf); cbn [tbind];
  rewrite (differentiate_t_ok _ (derived_valid f Hf)); cbn [tbind];
  rewrite (differentiate_t_ok g Hg); cbn [tbind];
  rewrite (differentiate_t_ok _ (derived_valid g Hg)); cbn [tbind];
  cbn [derived idx knots coefs];
  decide_branches;
  replace (idx f - idx g)%Z with (- d)%Z by lia;
  unfold overlap_integral; rewrite Hd;
  let Hfl := fresh in let Hfs := fresh in let Hgs := fresh in
  destruct (proj1 (valid_iff f) Hf) as (Hfl & Hfs & _);
  destruct (proj1 (valid_iff g) Hg) as (_ & Hgs & _);
  destruct (shape_4x4_inv _ Hfs)
    as (? & ? & ? & ? & ? & ? & ? & ? & ? & ? & ? & ? & ? & ? & ? & ? & ->);
  destruct (shape_4x4_inv _ Hgs)
    as (? & ? & ? & ? & ? & ? & ? & ? & ? & ? & ? & ? & ? & ? & ? & ? & ->);
  destruct (length5_inv _ Hfl) as (? & ? & ? & ? & ? & ->);
  arith_normalise; f_equal; ring.

(** On objects built by the constructor whose indices differ by at most 3,
    [__mod__] returns the integral of the product of the second derivatives
    over the shared intervals. *)
Lemma mod_near (f g : PP_Cubic) :
  valid f -> valid g -> (Z.abs (idx f - idx g) <= 3)%Z ->
  snd (__mod__ f g) = Ok (overlap_integral f g).
Proof.
  intros Hf Hg Hd.
  assert (H : (idx g - idx f = -3 \/ idx g - idx f = -2 \/ idx g - idx f = -1
               \/ idx g - idx f = 0 \/ idx g - idx f = 1
               \/ idx g - idx f = 2 \/ idx g - idx f = 3)%Z) by lia.
  clear Hd.
  destruct H as [H|[H|[H|[H|[H|[H|H]]]]]]; mod_offset Hf Hg H.
Qed.

Lemma overlap_far (f g : PP_Cubic) :
  (3 < Z.abs (idx f - idx g))%Z -> overlap_integral f g = 0.
Proof.
  intro H. unfold overlap_integral. cbn [seq map].
  repeat match goal with
         | |- context [(?a <=? ?b)%Z] => destruct (Z.leb_spec a b)
         | |- context [(?a <? ?b)%Z] => destruct (Z.ltb_spec a b)
         end; try lia; cbn [andb fold_left]; ring.
Qed.

(** [__mod__] never fails on objects built by the constructor. *)
Lemma product_integrate_ok (f g : PP_Cubic) :
  valid f -> valid g ->
  product_integrate f g = Ok (overlap_integral f g).
Proof.
  intros Hf Hg. unfold product_integrate.
  destruct (Z.ltb_spec 3 (Z.abs (idx f - idx g))) as [H|H].
  - rewrite (mod_far f g H), (overlap_far f g H). reflexivity.
  - now apply mod_near.
Qed.

(** ** Commutativity *)

Ltac use_alignment Ha :=
  let go r r' :=
    try (let E := fresh "E" in
         assert (E := Ha r r' ltac:(lia) ltac:(lia) ltac:(cbn [idx]; lia));
         cbn [knots at_ nth] in E) in
  go 0%nat 0%nat; go 0%nat 1%nat; go 0%nat 2%nat; go 0%nat 3%nat;
  go 1%nat 0%nat; go 1%nat 1%nat; go 1%nat 2%nat; go 1%nat 3%nat; go 1%nat 4%nat;
  go 2%nat 0%nat; go 2%nat 1%nat; go 2%nat 2%nat; go 2%nat 3%nat; go 2%nat 4%nat;
  go 3%nat 0%nat; go 3%nat 1%nat; go 3%nat 2%nat; go 3%nat 3%nat; go 3%nat 4%nat;
  go 4%nat 1%nat; go 4%nat 2%nat; go 4%nat 3%nat; go 4%nat 4%nat.

Ltac comm_offset Hf Hg Ha Hd :=
  let f := match type of Hd with (idx _ - idx ?f = _)%Z => f end in
  let g := match type of Hd with (idx ?g - idx _ = _)%Z => g end in
  let d := match type of Hd with (_ = ?d)%Z => d end in
  unfold overlap_integral;
  replace (idx f - idx g)%Z with (- d)%Z by lia; rewrite Hd;
  let Hfl := fresh in let Hfs := fresh in
  let Hgl := fresh in let Hgs := fresh in
  destruct (proj1 (valid_iff f) Hf) as (Hfl & Hfs & _);
  destruct (proj1 (valid_iff g) Hg) as (Hgl & Hgs & _);
  destruct f as [fi fk fc]; destruct g as [gi gk gc];
  cbn [idx knots coefs] in *;
  destruct (shape_4x4_inv _ Hfs)
    as (? & ? & ? & ? & ? & ? & ? & ? & ? & ? & ? & ? & ? & ? & ? & ? & ->);
  destruct (shape_4x4_inv _ Hgs)
    as (? & ? & ? & ? & ? & ? & ? & ? & ? & ? & ? & ? & ? & ? & ? & ? & ->);
  destruct (length5_inv _ Hfl) as (? & ? & ? & ? & ? & ->);
  destruct (length5_inv _ Hgl) as (? & ? & ? & ? & ? & ->);
  use_alignment Ha; subst;
  arith_normalise; ring.

(** The integral does not depend on the order of the two functions when
    both are windows of one knot sequence. *)
Lemma overlap_integral_comm (f g : PP_Cubic) :
  valid f -> valid g -> aligned f g ->
  overlap_integral f g = overlap_integral g f.
Proof.
  intros Hf Hg Ha.
  destruct (Z.ltb_spec 3 (Z.abs (idx f - idx g))) as [H|H].
  - rewrite (overlap_far f g H), (overlap_far g f) by lia. reflexivity.
  - assert (H' : (idx g - idx f = -3 \/ idx g - idx f = -2
                  \/ idx g - idx f = -1 \/ idx g - idx f = 0
                  \/ idx g - idx f = 1 \/ idx g - idx f = 2
                  \/ idx g - idx f = 3)%Z) by lia.
    clear H.
    destruct H' as [H|[H|[H|[H|[H|[H|H]]]]]]; comm_offset Hf Hg Ha H.
Qed.

(** ** Bases built by [get_BSbasis] *)

Lemma get_BSbasis_inv (Bbasis_c : list Qc -> table) (data : pyseq Qc)
    (basis : list PP_Cubic) :
  get_BSbasis Bbasis_c data = Ok basis ->
  exists padded,
    get_BSbasis_padded data = Ok padded
    /\ forall i f, nth_error basis i = Some f ->
         valid f /\ idx f = Z.of_nat i
         /\ knots f = slice i (i + 5) padded.
Proof.
  unfold get_BSbasis. intro H. apply bind_ok in H.
  destruct H as (padded & Hp & H). exists padded. split; [exact Hp|].
  apply mapM_ok_inv in H. destruct H as [Hlen Hnth].
  intros i f Hi.
  assert (Hlt : (i < length basis)%nat)
    by (apply nth_error_Some; congruence).
  rewrite Hlen, length_seq in Hlt.
  destruct (Hnth i i) as (b & Hb & Hinit).
  { rewrite nth_error_seq.
    destruct (Nat.ltb_spec i
                (Z.to_nat (Z.of_nat (length (items data)) - 2 + 4)));
      [reflexivity | lia]. }
  rewrite Hi in Hb. inversion Hb; subst b.
  apply init_valid in Hinit. cbn [items] in Hinit. tauto.
Qed.

Lemma at_slice (i r : nat) (l : list Qc) :
  (r < 5)%nat -> at_ 0 (slice i (i + 5) l) r = nth (i + r) l 0.
Proof.
  intro H. unfold at_, slice.
  replace (i + 5 - i)%nat with 5%nat by lia.
  rewrite nth_firstn.
  destruct (Nat.ltb_spec r 5); [|lia]. apply nth_skipn.
Qed.

(** Two members of one basis are windows of the padded knots. *)
Lemma basis_aligned (Bbasis_c : list Qc -> table) (data : pyseq Qc)
    (basis : list PP_Cubic) (i j : nat) (f g : PP_Cubic) :
  get_BSbasis Bbasis_c data = Ok basis ->
  nth_error basis i = Some f -> nth_error basis j = Some g ->
  valid f /\ valid g /\ aligned f g
  /\ idx f = Z.of_nat i /\ idx g = Z.of_nat j.
Proof.
  intros H Hi Hj. apply get_BSbasis_inv in H.
  destruct H as (padded & _ & H).
  destruct (H i f Hi) as (Hvf & Hif & Hkf).
  destruct (H j g Hj) as (Hvg & Hig & Hkg).
  repeat split; auto.
  intros r r' Hr Hr' E. rewrite Hkf, Hkg, !at_slice by lia.
  f_equal. lia.
Qed.

Lemma basis_valid (Bbasis_c : list Qc -> table) (data : pyseq Qc)
    (basis : list PP_Cubic) :
  get_BSbasis Bbasis_c data = Ok basis -> Forall valid basis.
Proof.
  intro H. apply get_BSbasis_inv in H. destruct H as (padded & _ & H).
  apply Forall_forall. intros f Hf.
  apply In_nth_error in Hf. destruct Hf as [i Hi].
  now destruct (H i f Hi).
Qed.

(** ** The penalty matrix *)

Lemma get_penalty_matrix_ok (basis : list PP_Cubic) :
  Forall valid basis ->
  get_penalty_matrix basis
  = Ok (mkArr [length basis; length basis] (penalty_cells basis)).
Proof.
  intro Hv. rewrite Forall_forall in Hv. unfold get_penalty_matrix.
  rewrite (mapM_ext_ok _ (fun bi => map (fun bj => overlap_integral bi bj) basis)).
  - reflexivity.
  - intros bi Hbi. apply mapM_ext_ok. intros bj Hbj.
    apply product_integrate_ok; auto.
Qed.

Lemma penalty_cell (basis : list PP_Cubic) (i j : nat) (f g : PP_Cubic) :
  nth_error basis i = Some f -> nth_error basis j = Some g ->
  cell (penalty_cells basis) i j = overlap_integral f g.
Proof.
  intros Hi Hj. unfold cell, row, penalty_cells, at_.
  assert (Hli : (i < length basis)%nat) by (apply nth_error_Some; congruence).
  assert (Hlj : (j < length basis)%nat) by (apply nth_error_Some; congruence).
  rewrite (nth_indep _ [] (map (fun bj => overlap_integral f bj) basis))
    by (rewrite length_map; exact Hli).
  rewrite (map_nth (fun bi => map (fun bj => overlap_integral bi bj) basis)
             basis f i).
  rewrite (nth_error_nth _ _ f Hi).
  rewrite (nth_indep _ 0 (overlap_integral f g))
    by (rewrite length_map; exact Hlj).
  rewrite (map_nth (fun bj => overlap_integral f bj) basis g j).
  rewrite (nth_error_nth _ _ g Hj). reflexivity.
Qed.

(** C1: for two functions of one basis built by [get_BSbasis],
    [__mod__] returns the same number in both orders, whichever of its
    three branches each call takes; hence the penalty matrix of the basis is
    symmetric. *)
Theorem product_integrate_comm (Bbasis_c : list Qc -> table)
    (data : pyseq Qc) (basis : list PP_Cubic) :
  get_BSbasis Bbasis_c data = Ok basis ->
  (forall i j f g,
      nth_error basis i = Some f -> nth_error basis j = Some g ->
      exists v, product_integrate f g = Ok v
                /\ product_integrate g f = Ok v)
  /\
  exists P,
    get_penalty_matrix basis = Ok P
    /\ forall i j, (i < length basis)%nat -> (j < length basis)%nat ->
                   entry P i j = entry P j i.
Proof.
  intro H. split.
  - intros i j f g Hi Hj.
    destruct (basis_aligned _ _ _ _ _ _ _ H Hi Hj) as (Hf & Hg & Ha & _).
    exists (overlap_integral f g). split.
    + now apply product_integrate_ok.
    + rewrite (overlap_integral_comm f g Hf Hg Ha).
      now apply product_integrate_ok.
  - eexists. split; [apply get_penalty_matrix_ok, (basis_valid _ _ _ H)|].
    intros i j Hi Hj. unfold entry. cbn [cells].
    destruct (nth_error basis i) as [f|] eqn:Ei;
      [|apply nth_error_None in Ei; lia].
    destruct (nth_error basis j) as [g|] eqn:Ej;
      [|apply nth_error_None in Ej; lia].
    rewrite (penalty_cell basis i j f g Ei Ej),
            (penalty_cell basis j i g f Ej Ei).
    destruct (basis_aligned _ _ _ _ _ _ _ H Ei Ej) as (Hf & Hg & Ha & _).
    now apply overlap_integral_comm.
Qed.

(** C2: when the indices differ by more than 3, [__mod__] returns 0 at
    once: its log of differentiations, convolutions and integrations is
    empty.  Hence the penalty matrix of a basis built by [get_BSbasis], in
    which the index of a function is its position, is 0 outside the band
    [|i - j| <= 3]. *)
Theorem mod_banded :
  (forall f g : PP_Cubic,
      (3 < Z.abs (idx f - idx g))%Z -> __mod__ f g = ([], Ok 0))
  /\
  (forall (Bbasis_c : list Qc -> table) (data : pyseq Qc)
          (basis : list PP_Cubic),
      get_BSbasis Bbasis_c data = Ok basis ->
      exists P,
        get_penalty_matrix basis = Ok P
        /\ forall i j, (i < length basis)%nat -> (j < length basis)%nat ->
             (3 < Z.abs (Z.of_nat i - Z.of_nat j))%Z -> entry P i j = 0).
Proof.
  split; [exact mod_far|].
  intros Bbasis_c data basis H.
  eexists. split; [apply get_penalty_matrix_ok, (basis_valid _ _ _ H)|].
  intros i j Hi Hj Hd. unfold entry. cbn [cells].
  destruct (nth_error basis i) as [f|] eqn:Ei;
    [|apply nth_error_None in Ei; lia].
  destruct (nth_error basis j) as [g|] eqn:Ej;
    [|apply nth_error_None in Ej; lia].
  rewrite (penalty_cell basis i j f g Ei Ej).
  destruct (basis_aligned _ _ _ _ _ _ _ H Ei Ej) as (_ & _ & _ & Hif & Hig).
  apply overlap_far. rewrite Hif, Hig. exact Hd.
Qed.

Lemma get_BSbasis_data11 :
  get_BSbasis uniform_basis_c (NdArray data11) = Ok basis11.
Proof.
  apply (get_BSbasis_ok uniform_basis_c); [reflexivity | discriminate |].
  vm_compute. reflexivity.
Qed.

Lemma product_integrate_comm_witness :
  get_BSbasis uniform_basis_c (NdArray data11) = Ok basis11 /\
  exists P, get_penalty_matrix basis11 = Ok P
            /\ entry P 4 5 = entry P 5 4.
Proof.
  split; [exact get_BSbasis_data11|].
  destruct (product_integrate_comm uniform_basis_c (NdArray data11) basis11
              get_BSbasis_data11) as (_ & P & HP & Hsym).
  exists P. split; [exact HP|]. apply Hsym; vm_compute; lia.
Defined.

Lemma mod_banded_witness :
  get_BSbasis uniform_basis_c (NdArray data11) = Ok basis11 /\
  exists P, get_penalty_matrix basis11 = Ok P /\ entry P 1 5 = 0.
Proof.
  split; [exact get_BSbasis_data11|].
  destruct (proj2 mod_banded uniform_basis_c (NdArray data11) basis11
              get_BSbasis_data11) as (P & HP & Hz).
  exists P. split; [exact HP|]. apply Hz; vm_compute; reflexivity || lia.
Defined.

(** The interior of the penalty matrix of the unit-spaced basis: the
    integrals of [B'' * B''] for the uniform cubic B-spline and its
    translates by 0, 1, 2, 3 and 4 knots. *)
Example penalty_uniform :
  map (fun j => product_integrate (at_ pp_uniform basis11 5)
                                  (at_ pp_uniform basis11 (5 + j)))
      (seq 0 5)
  = [Ok (Q2Qc (8 # 3)); Ok (Q2Qc (-3 # 2)); Ok 0; Ok (Q2Qc (1 # 6)); Ok 0].
Proof. qc_compute. Qed.

Example penalty_uniform_swapped :
  map (fun j => product_integrate (at_ pp_uniform basis11 (5 + j))
                                  (at_ pp_uniform basis11 5))
      (seq 0 5)
  = [Ok (Q2Qc (8 # 3)); Ok (Q2Qc (-3 # 2)); Ok 0; Ok (Q2Qc (1 # 6)); Ok 0].
Proof. qc_compute. Qed.

(** The operations [__mod__] starts: none past the band, and four
    differentiations, one convolution per shared interval and eight
    integrations inside it. *)
Example mod_log :
  fst (__mod__ (at_ pp_uniform basis11 5) (at_ pp_uniform basis11 9)) = []
  /\ fst (__mod__ (at_ pp_uniform basis11 5) (at_ pp_uniform basis11 7))
     = repeat OpDifferentiate 4 ++ repeat OpConvolve 2 ++ repeat OpInteg 8.
Proof. split; vm_compute; reflexivity. Qed.

(* ================================================================== *)
(** * The input check of [get_BSbasis] *)

(** Lines 132-133 only.  The one check that [get_BSbasis] itself makes on its
    input is [type(data) == np.ndarray]: any other sequence is rejected with
    an [AssertionError].  An array with at least one entry along its first
    axis passes that line, whatever its entries are, and line 133 pads it
    along that axis.  What becomes of an array that is not 1-D is decided
    after these two lines, inside [scipy.interpolate.BSpline] (lines
    136-137), which is not part of this development: [get_BSbasis_padded]
    is the fragment before that call, not the whole function. *)
Theorem get_BSbasis_input_check :
  (forall (Bbasis_c : list Qc -> table) (xs : list Qc),
      get_BSbasis Bbasis_c (PyList xs) = Raise AssertionError)
  /\ (forall (A : Type) (xs : list A),
         get_BSbasis_padded (PyList xs) = Raise AssertionError)
  /\ (forall (A : Type) (d : A) (xs : list A), xs <> [] ->
         get_BSbasis_padded (NdArray xs)
         = Ok (repeat (hd d xs) 3 ++ xs ++ repeat (last xs d) 3)).
Proof.
  split; [reflexivity|]. split; [reflexivity|].
  intros A d xs H. now apply padded_ok.
Qed.

Lemma get_BSbasis_input_check_witness :
  get_BSbasis_padded (NdArray [1%nat; 2%nat]) = Ok [1; 1; 1; 1; 2; 2; 2; 2]%nat.
Proof.
  apply (proj2 (proj2 get_BSbasis_input_check) nat 0%nat [1; 2]%nat).
  discriminate.
Defined.

(** The fragment of lines 132-133 on the 2-D array [[0, 1], [2, 3]]: the
    type assertion passes and the rows are padded along the first axis.  The
    5-row windows then go to scipy, whose answer on them is outside this
    development; nothing is said here of the result of [get_BSbasis]
    itself on such an array. *)
Lemma get_BSbasis_accepts_2d :
  get_BSbasis_padded (NdArray [[ofZ 0; ofZ 1]; [ofZ 2; ofZ 3]])
  = Ok [[ofZ 0; ofZ 1]; [ofZ 0; ofZ 1]; [ofZ 0; ofZ 1]; [ofZ 0; ofZ 1];
        [ofZ 2; ofZ 3]; [ofZ 2; ofZ 3]; [ofZ 2; ofZ 3]; [ofZ 2; ofZ 3]].
Proof. reflexivity. Qed.

(* ================================================================== *)
(** * Matrix builders (C9) *)

Lemma map_seq_nth {A B} (h : A -> B) (d : A) (l : list A) :
  map (fun j => h (nth j l d)) (seq 0 (length l)) = map h l.
Proof.
  induction l as [|a l IH]; [reflexivity|].
  cbn [length seq map nth]. f_equal.
  rewrite <- seq_shift, map_map. exact IH.
Qed.

Lemma mapM_call (pts : list Qc) (basis : list PP_Cubic) :
  mapM (fun b => __call__ b (NdArray pts)) basis
  = Ok (map (fun b => map (eval_PP b) pts) basis).
Proof. apply mapM_ext_ok. reflexivity. Qed.

Lemma T_np_array (pts : list Qc) (basis : list PP_Cubic) :
  basis <> [] ->
  T (np_array (map (fun b => map (eval_PP b) pts) basis))
  = mkArr [length pts; length basis] (value_cells pts basis).
Proof.
  intro Hne. destruct basis as [|b0 basis]; [congruence|].
  set (bs := b0 :: basis).
  unfold np_array, T.
  change (map (fun b => map (eval_PP b) pts) bs)
    with (map (eval_PP b0) pts :: map (fun b => map (eval_PP b) pts) basis).
  cbn [shape cells length]. rewrite !length_map.
  change (S (length basis)) with (length bs). f_equal.
  change (map (eval_PP b0) pts :: map (fun b => map (eval_PP b) pts) basis)
    with (map (fun b => map (eval_PP b) pts) bs).
  unfold value_cells.
  rewrite <- (map_seq_nth (fun x => map (fun b => eval_PP b x) bs) 0 pts).
  apply map_ext_in. intros j Hj. apply in_seq in Hj.
  rewrite map_map. apply map_ext. intro b.
  apply (at_map (eval_PP b) 0 0). lia.
Qed.

Lemma get_basis_matrix_ok (pts : list Qc) (basis : list PP_Cubic) :
  basis <> [] ->
  get_basis_matrix (NdArray pts) basis
  = Ok (mkArr [length pts; length basis] (value_cells pts basis)).
Proof.
  intro Hne. unfold get_basis_matrix.
  rewrite mapM_call. cbn [bind]. now rewrite T_np_array.
Qed.

Lemma mapM_differentiate (basis : list PP_Cubic) :
  Forall valid basis -> mapM differentiate basis = Ok (map derived basis).
Proof.
  intro Hv. rewrite Forall_forall in Hv.
  apply mapM_ext_ok. intros b Hb. apply differentiate_ok. auto.
Qed.

(** C9: for an array of points and a non-empty basis of objects built by
    the constructor, the value and derivative matrices have shape
    [(len(points), len(basis))] and the penalty matrix
    [(len(basis), len(basis))], each with as many rows of cells and cells
    per row as its shape says; the derivative matrix is the value matrix
    of the basis differentiated once. *)
Theorem matrix_shapes (pts : list Qc) (basis : list PP_Cubic) :
  basis <> [] -> Forall valid basis ->
  exists V D P basis',
    get_basis_matrix (NdArray pts) basis = Ok V
    /\ get_deriv_matrix (NdArray pts) basis = Ok D
    /\ get_penalty_matrix basis = Ok P
    /\ shape V = [length pts; length basis]
    /\ shape D = [length pts; length basis]
    /\ shape P = [length basis; length basis]
    /\ length (cells V) = length pts
    /\ Forall (fun r => length r = length basis) (cells V)
    /\ mapM differentiate basis = Ok basis'
    /\ get_basis_matrix (NdArray pts) basis' = Ok D
    /\ length (cells D) = length pts
    /\ Forall (fun r => length r = length basis) (cells D)
    /\ length (cells P) = length basis
    /\ Forall (fun r => length r = length basis) (cells P).
Proof.
  intros Hne Hv.
  assert (Hne' : map derived basis <> [])
    by (destruct basis; [congruence | discriminate]).
  exists (mkArr [length pts; length basis] (value_cells pts basis)),
         (mkArr [length pts; length basis]
                (value_cells pts (map derived basis))),
         (mkArr [length basis; length basis] (penalty_cells basis)),
         (map derived basis).
  split; [now apply get_basis_matrix_ok|].
  split.
  { unfold get_deriv_matrix. rewrite (mapM_differentiate basis Hv).
    cbn [bind]. rewrite mapM_call. cbn [bind].
    rewrite (T_np_array pts _ Hne'), length_map. reflexivity. }
  split; [now apply get_penalty_matrix_ok|].
  cbn [shape cells]. repeat split.
  - unfold value_cells. apply length_map.
  - apply Forall_forall. intros r Hr. unfold value_cells in Hr.
    apply in_map_iff in Hr. destruct Hr as (x & <- & _). apply length_map.
  - now apply mapM_differentiate.
  - rewrite (get_basis_matrix_ok pts _ Hne'), length_map. reflexivity.
  - unfold value_cells. apply length_map.
  - apply Forall_forall. intros r Hr. unfold value_cells in Hr.
    apply in_map_iff in Hr. destruct Hr as (x & <- & _).
    now rewrite !length_map.
  - unfold penalty_cells. apply length_map.
  - apply Forall_forall. intros r Hr. unfold penalty_cells in Hr.
    apply in_map_iff in Hr. destruct Hr as (bi & <- & _). apply length_map.
Qed.

Lemma matrix_shapes_witness :
  basis11 <> [] /\ Forall valid basis11 /\
  exists V P, get_basis_matrix (NdArray data11) basis11 = Ok V
              /\ shape V = [11; 13]%nat
              /\ get_penalty_matrix basis11 = Ok P
              /\ shape P = [13; 13]%nat /\ length (cells P) = 13%nat.
Proof.
  split; [discriminate|].
  assert (Hv : Forall valid basis11)
    by (apply (basis_valid uniform_basis_c (NdArray data11)),
          get_BSbasis_data11).
  split; [exact Hv|].
  destruct (matrix_shapes data11 basis11)
    as (V & D & P & b' & HV & _ & HP & HS & _ & HSP & _ & _ & _ & _ & _ & _
        & HPl & _).
  - discriminate.
  - exact Hv.
  - exists V, P. repeat split; assumption.
Defined.

(* ================================================================== *)
(** * Repeated knots

    The module's own arithmetic never divides by the length of an interval:
    [eval_PP] and [differentiate] do not divide at all, and [integ] divides
    by the positive integers [len(p), ..., 1].  What scipy computes for a
    window with repeated knots is outside the module. *)

(** An interval of length 0 contributes 0 to the integral. *)
Lemma linear_product_integral_0 (u v : Qc * Qc) :
  linear_product_integral u v 0 = 0.
Proof.
  unfold linear_product_integral, Qcdiv.
  cbv beta iota delta [Qcpower]. ring.
Qed.

(** Given scipy's tables, the input [[0,0,0,1,1,1]] yields 8 objects that
    the constructor accepts, although 6 of their windows have intervals of
    length 0; each evaluates at every point and [__mod__] returns a number
    for every pair. *)
Lemma get_BSbasis_repeated (Bbasis_c : list Qc -> table) :
  (forall w, length w = 5%nat -> sortedb w = true ->
             shape_is 4 4 (Bbasis_c w) = true) ->
  exists basis,
    get_BSbasis Bbasis_c (NdArray data_repeated) = Ok basis
    /\ length basis = 8%nat
    /\ Forall valid basis
    /\ (forall f g, In f basis -> In g basis ->
          product_integrate f g = Ok (overlap_integral f g)).
Proof.
  intro HB.
  assert (H := get_BSbasis_ok Bbasis_c HB data_repeated).
  eexists. split; [apply H; [discriminate | vm_compute; reflexivity]|].
  split; [reflexivity|].
  assert (Hv := basis_valid _ _ _
                  (H ltac:(discriminate) ltac:(vm_compute; reflexivity))).
  split; [exact Hv|].
  rewrite Forall_forall in Hv. intros f g Hf Hg.
  apply product_integrate_ok; auto.
Qed.

(* ================================================================== *)
(** * Further properties of the module *)

(** ** When [get_BSbasis] succeeds and how it fails *)

Lemma mapM_ok_all {A B} (f : A -> result B) (l : list A) (bs : list B) :
  mapM f l = Ok bs -> forall a, In a l -> exists b, f a = Ok b.
Proof.
  intros H a Ha. apply mapM_ok_inv in H. destruct H as [_ H].
  apply In_nth_error in Ha. destruct Ha as [i Hi].
  destruct (H i a Hi) as (b & _ & Hb). eauto.
Qed.

Lemma mapM_raise_inv {A B} (f : A -> result B) (l : list A) (e : exn) :
  mapM f l = Raise e -> exists a, In a l /\ f a = Raise e.
Proof.
  induction l as [|a l IH]; simpl; [discriminate|].
  destruct (f a) as [b|e'] eqn:E; simpl.
  - destruct (mapM f l) as [bs|e'']; simpl; [discriminate|].
    intro H. inversion H; subst. destruct (IH eq_refl) as (a' & Ha & Hf).
    exists a'. auto.
  - intro H. inversion H; subst. exists a. auto.
Qed.

Lemma sortedb_adjacent (l : list Qc) :
  sortedb l = true <->
  forall k, (S k < length l)%nat -> at_ 0 l k <= at_ 0 l (S k).
Proof.
  split.
  - intros H k Hk. apply sortedb_nondecreasing in H. apply H; lia.
  - induction l as [|x l IH]; [reflexivity|]. intro H.
    destruct l as [|y l]; [reflexivity|].
    change (sortedb (x :: y :: l)) with (Qcleb x y && sortedb (y :: l)).
    apply andb_true_iff. split.
    + apply Qcleb_le. apply (H 0%nat). simpl. lia.
    + apply IH. intros k Hk. apply (H (S k)). simpl in *. lia.
Qed.

Lemma last_nth (l : list Qc) :
  l <> [] -> last l 0 = nth (length l - 1) l 0.
Proof.
  intro H. symmetry. apply nth_error_nth. now apply nth_error_last.
Qed.

(** The padded knot at position [m] is the data point at [m - 3], clamped
    to the range of the data. *)
Lemma nth_padded (data : list Qc) (m : nat) :
  data <> [] -> (m < length data + 6)%nat ->
  nth m (padded_knots data) 0 = nth (Nat.min (m - 3) (length data - 1)) data 0.
Proof.
  intros Hne Hm. unfold padded_knots.
  assert (Hlen : (0 < length data)%nat)
    by (destruct data; [congruence | simpl; lia]).
  destruct (Nat.lt_ge_cases m 3) as [H3|H3].
  - rewrite app_nth1 by (rewrite repeat_length; exact H3).
    rewrite nth_repeat_lt by exact H3.
    replace (Nat.min (m - 3) (length data - 1)) with 0%nat by lia.
    destruct data; [congruence | reflexivity].
  - rewrite app_nth2 by (rewrite repeat_length; exact H3).
    rewrite repeat_length.
    destruct (Nat.lt_ge_cases (m - 3) (length data)) as [Hd|Hd].
    + rewrite app_nth1 by exact Hd. f_equal. lia.
    + rewrite app_nth2 by exact Hd.
      rewrite nth_repeat_lt by lia.
      rewrite (last_nth data Hne). f_equal. lia.
Qed.

Lemma padded_length (data : list Qc) :
  length (padded_knots data) = (length data + 6)%nat.
Proof. unfold padded_knots. rewrite !length_app, !repeat_length. lia. Qed.

Lemma sortedb_window (data : list Qc) (i : nat) :
  sortedb data = true ->
  sortedb (slice i (i + 5) (padded_knots data)) = true.
Proof. intro H. apply sortedb_slice. now apply sortedb_padded. Qed.

(** If every window of the padded knots is sorted, so is the data. *)
Lemma windows_sorted_data (data : list Qc) :
  data <> [] ->
  (forall i, (i < length data + 2)%nat ->
             sortedb (slice i (i + 5) (padded_knots data)) = true) ->
  sortedb data = true.
Proof.
  intros Hne H. apply sortedb_adjacent. intros k Hk.
  specialize (H k ltac:(lia)).
  apply sortedb_nondecreasing in H.
  assert (Hw : length (slice k (k + 5) (padded_knots data)) = 5%nat)
    by (apply slice_length; rewrite padded_length; lia).
  specialize (H 3%nat 4%nat ltac:(lia) ltac:(lia)).
  rewrite !at_slice in H by lia.
  rewrite !nth_padded in H by (auto; lia).
  unfold at_.
  replace (Nat.min (k + 3 - 3) (length data - 1)) with k in H by lia.
  replace (Nat.min (k + 4 - 3) (length data - 1)) with (S k) in H by lia.
  exact H.
Qed.

Lemma get_BSbasis_value (Bbasis_c : list Qc -> table) (data : list Qc) :
  data <> [] -> sortedb data = true ->
  (forall i, (i < length data + 2)%nat ->
     shape_is 4 4 (Bbasis_c (slice i (i + 5) (padded_knots data))) = true) ->
  get_BSbasis Bbasis_c (NdArray data)
  = Ok (map (basis_at Bbasis_c (padded_knots data))
            (seq 0 (length data + 2))).
Proof.
  intros Hne Hs Hshape.
  unfold get_BSbasis. rewrite (padded_ok 0 data Hne).
  cbn [bind items].
  replace (Z.to_nat (Z.of_nat (length data) - 2 + 4))
    with (length data + 2)%nat by lia.
  fold (padded_knots data).
  apply (mapM_ext_ok _ (basis_at Bbasis_c (padded_knots data))).
  intros i Hi. apply in_seq in Hi.
  rewrite init_eq. cbn [items is_ndarray].
  rewrite slice_length by (rewrite padded_length; lia).
  rewrite Hshape by lia.
  rewrite (sortedb_window data i Hs).
  reflexivity.
Qed.

Lemma get_BSbasis_conditions (Bbasis_c : list Qc -> table)
    (data : list Qc) (basis : list PP_Cubic) :
  get_BSbasis Bbasis_c (NdArray data) = Ok basis ->
  data <> [] /\ sortedb data = true
  /\ (forall i, (i < length data + 2)%nat ->
        shape_is 4 4 (Bbasis_c (slice i (i + 5) (padded_knots data))) = true)
  /\ basis = map (basis_at Bbasis_c (padded_knots data))
                 (seq 0 (length data + 2)).
Proof.
  intro H0. pose proof H0 as H.
  destruct data as [|d0 data']; [discriminate|].
  set (data := d0 :: data') in *.
  assert (Hne : data <> []) by discriminate.
  unfold get_BSbasis in H. rewrite (padded_ok 0 data Hne) in H.
  cbn [bind items] in H.
  replace (Z.to_nat (Z.of_nat (length data) - 2 + 4))
    with (length data + 2)%nat in H by lia.
  fold (padded_knots data) in H.
  assert (Hall : forall i, (i < length data + 2)%nat ->
            sortedb (slice i (i + 5) (padded_knots data)) = true
            /\ shape_is 4 4 (Bbasis_c (slice i (i + 5) (padded_knots data)))
               = true).
  { intros i Hi.
    destruct (mapM_ok_all _ _ _ H i) as [b Hb]; [apply in_seq; lia|].
    rewrite init_eq in Hb. cbn [items is_ndarray] in Hb.
    destruct (length _ =? 5)%nat; [|discriminate].
    destruct (shape_is 4 4 _); [|discriminate].
    destruct (sortedb _); [|discriminate]. auto. }
  assert (Hs : sortedb data = true).
  { apply windows_sorted_data; [exact Hne|]. intros i Hi. apply Hall, Hi. }
  assert (Hsh : forall i, (i < length data + 2)%nat ->
            shape_is 4 4 (Bbasis_c (slice i (i + 5) (padded_knots data)))
            = true) by (intros i Hi; apply Hall, Hi).
  repeat split; auto.
  rewrite (get_BSbasis_value Bbasis_c data Hne Hs Hsh) in H0.
  now inversion H0.
Qed.

(** [get_BSbasis] succeeds on an array exactly when the array is not empty,
    is sorted, and scipy returns a 4 by 4 table for each of its
    [len(data) + 2] windows; sortedness of the data is checked only through
    the constructor's check of every window. *)
Theorem get_BSbasis_succeeds_iff (Bbasis_c : list Qc -> table)
    (data : list Qc) :
  (exists basis, get_BSbasis Bbasis_c (NdArray data) = Ok basis)
  <->
  data <> [] /\ nondecreasing data
  /\ forall i, (i < length data + 2)%nat ->
       shape_is 4 4 (Bbasis_c (slice i (i + 5) (padded_knots data))) = true.
Proof.
  split.
  - intros [basis H]. apply get_BSbasis_conditions in H.
    destruct H as (Hne & Hs & Hsh & _).
    apply sortedb_nondecreasing in Hs. auto.
  - intros (Hne & Hs & Hshape). apply sortedb_nondecreasing in Hs.
    eexists. now apply get_BSbasis_value.
Qed.

(** For [data] a Python list or a 1-D numpy array of numbers, and with the
    coefficient table that scipy returns for each window taken as given
    ([Bbasis_c], a total function: scipy is assumed to answer on every 1-D
    window of 5 knots), a failure of [get_BSbasis] has one of these causes:
    an argument that is not a numpy array, or unsorted data, or a table of
    the wrong shape ([AssertionError]), or the empty 1-D array ([IndexError],
    from [data[0]]).  Arrays that are not 1-D, and errors raised inside
    scipy, are outside the statement. *)
Theorem get_BSbasis_failure (Bbasis_c : list Qc -> table)
    (data : pyseq Qc) (e : exn) :
  get_BSbasis Bbasis_c data = Raise e ->
  (e = IndexError /\ data = NdArray [])
  \/ (e = AssertionError
      /\ (is_ndarray data = false
          \/ ~ nondecreasing (items data)
          \/ exists i, (i < length (items data) + 2)%nat
               /\ shape_is 4 4
                    (Bbasis_c (slice i (i + 5) (padded_knots (items data))))
                  = false)).
Proof.
  intro H. destruct data as [xs|xs].
  - right. inversion H. auto.
  - destruct xs as [|d0 data']; [left; inversion H; auto|].
    set (data := d0 :: data') in *.
    assert (Hne : data <> []) by discriminate.
    right. unfold get_BSbasis in H. rewrite (padded_ok 0 data Hne) in H.
    cbn [bind items] in H. fold (padded_knots data) in H.
    apply mapM_raise_inv in H. destruct H as (i & Hi & H).
    apply in_seq in Hi. rewrite init_eq in H. cbn [items is_ndarray] in H.
    rewrite slice_length in H by (rewrite padded_length; lia).
    cbn [Nat.eqb andb] in H.
    destruct (shape_is 4 4 _) eqn:Es.
    + destruct (sortedb (slice _ _ _)) eqn:Ew; [discriminate|].
      inversion H. split; [reflexivity|]. right. left. cbn [items].
      intro Hs. apply sortedb_nondecreasing in Hs.
      rewrite (sortedb_window data i Hs) in Ew.
      discriminate.
    + inversion H. split; [reflexivity|]. right. right.
      exists i. cbn [items]. split; [lia | exact Es].
Qed.

Lemma get_BSbasis_failure_witness :
  get_BSbasis uniform_basis_c (NdArray [ofZ 2; ofZ 1]) = Raise AssertionError
  /\ ~ nondecreasing [ofZ 2; ofZ 1].
Proof.
  assert (H : get_BSbasis uniform_basis_c (NdArray [ofZ 2; ofZ 1])
              = Raise AssertionError) by (vm_compute; reflexivity).
  split; [exact H|].
  destruct (get_BSbasis_failure uniform_basis_c _ _ H)
    as [[E _] | [_ [E | [E | (i & _ & E)]]]];
    [discriminate E | discriminate E | exact E | discriminate E].
Defined.

(** ** Which piece [eval_PP] uses *)

Lemma eval_PP_chosen (p : PP_Cubic) (x : Qc) :
  length (knots p) = 5%nat -> sortedb (knots p) = true ->
  at_ 0 (knots p) 0 <= x -> x <= at_ 0 (knots p) 4 ->
  eval_PP p x = piece p (chosen_row (knots p) x) x.
Proof.
  intros Hl Hk H0 H4.
  destruct (length5_inv _ Hl) as (k0 & k1 & k2 & k3 & k4 & Eks).
  unfold eval_PP, chosen_row. rewrite Eks in *. unfold at_ in *.
  cbn [nth] in *.
  destruct (sorted5_inv _ _ _ _ _ Hk) as (L01 & L12 & L23 & L34).
  rewrite (proj2 (Qcleb_le _ _) H0), (proj2 (Qcleb_le _ _) H4).
  cbn [andb negb].
  destruct (Qcleb x k1) eqn:E1; [reflexivity|].
  apply Qcleb_gt in E1.
  assert (L1 : k1 <= x) by now apply Qclt_le_weak.
  rewrite (proj2 (Qcleb_le _ _) L1). cbn [andb].
  destruct (Qcleb x k2) eqn:E2; [reflexivity|].
  apply Qcleb_gt in E2.
  assert (L2 : k2 <= x) by now apply Qclt_le_weak.
  unfold count_le. cbn [filter].
  rewrite (proj2 (Qcleb_le _ _) H0), (proj2 (Qcleb_le _ _) L1),
          (proj2 (Qcleb_le _ _) L2).
  destruct (Qcleb k3 x) eqn:E3.
  - destruct (Qcleb k4 x); reflexivity.
  - apply Qcleb_gt in E3.
    assert (E4 : Qcleb k4 x = false).
    { apply Qcleb_gt. now apply (Qclt_le_trans _ k3). }
    rewrite E4. reflexivity.
Qed.

(** How [eval_PP] resolves the closed interval boundaries: a point up to
    [knots[1]] is evaluated on piece 0 and a point in [(knots[1], knots[2]]]
    on piece 1, so at these two knots the left piece is used; past
    [knots[2]] a point below [knots[3]] is evaluated on piece 2 and a point
    from [knots[3]] on is evaluated on piece 3, so at [knots[3]] the right
    piece is used. *)
Theorem eval_PP_row_selection (p : PP_Cubic) (x : Qc) :
  valid p ->
  at_ 0 (knots p) 0 <= x -> x <= at_ 0 (knots p) 4 ->
  (x <= at_ 0 (knots p) 1 ->
   eval_PP p x = cubic (row (coefs p) 0) (x - at_ 0 (knots p) 0))
  /\ (at_ 0 (knots p) 1 < x -> x <= at_ 0 (knots p) 2 ->
      eval_PP p x = cubic (row (coefs p) 1) (x - at_ 0 (knots p) 1))
  /\ (at_ 0 (knots p) 2 < x -> x < at_ 0 (knots p) 3 ->
      eval_PP p x = cubic (row (coefs p) 2) (x - at_ 0 (knots p) 2))
  /\ (at_ 0 (knots p) 2 < x -> at_ 0 (knots p) 3 <= x ->
      eval_PP p x = cubic (row (coefs p) 3) (x - at_ 0 (knots p) 3)).
Proof.
  intros Hv H0 H4. apply valid_iff in Hv. destruct Hv as (Hl & _ & Hk).
  rewrite (eval_PP_chosen p x Hl Hk H0 H4), piece_cubic.
  apply sortedb_nondecreasing in Hk.
  assert (L12 : at_ 0 (knots p) 1 <= at_ 0 (knots p) 2)
    by (apply Hk; lia).
  unfold chosen_row. repeat split.
  - intro H. apply Qcleb_le in H. rewrite H. reflexivity.
  - intros H1 H2. apply Qcleb_gt in H1. apply Qcleb_le in H2.
    rewrite H1, H2. reflexivity.
  - intros H2 H3.
    assert (H1 : at_ 0 (knots p) 1 < x) by now apply (Qcle_lt_trans _ _ _ L12).
    apply Qcleb_gt in H1, H2, H3. rewrite H1, H2, H3. reflexivity.
  - intros H2 H3.
    assert (H1 : at_ 0 (knots p) 1 < x) by now apply (Qcle_lt_trans _ _ _ L12).
    apply Qcleb_gt in H1, H2. apply Qcleb_le in H3.
    rewrite H1, H2, H3. reflexivity.
Qed.

(** At the knot 3 of the uniform B-spline the piece of [[3, 4]] is used. *)
Lemma eval_PP_row_selection_witness :
  valid pp_uniform /\
  eval_PP pp_uniform (ofZ 3)
  = cubic (row (coefs pp_uniform) 3) (ofZ 3 - at_ 0 (knots pp_uniform) 3).
Proof.
  split; [exact valid_pp_uniform|].
  apply (eval_PP_row_selection pp_uniform (ofZ 3) valid_pp_uniform);
    vm_compute; congruence || reflexivity.
Defined.

(** Differentiation and evaluation compose piece by piece: the derivative
    object evaluates to 0 outside the support, and inside it to the
    derivative of the very piece that the receiver is evaluated on (the
    knots, hence the choice of the piece, are the same). *)
Theorem differentiate_then_evaluate (p : PP_Cubic) :
  valid p ->
  exists p',
    differentiate p = Ok p'
    /\ forall x,
         (x < at_ 0 (knots p) 0 \/ at_ 0 (knots p) 4 < x ->
          eval_PP p x = 0 /\ eval_PP p' x = 0)
         /\
         (at_ 0 (knots p) 0 <= x -> x <= at_ 0 (knots p) 4 ->
          eval_PP p x
          = cubic (row (coefs p) (chosen_row (knots p) x))
                  (x - at_ 0 (knots p) (chosen_row (knots p) x))
          /\ eval_PP p' x
             = cubic (deriv_row (row (coefs p) (chosen_row (knots p) x)))
                     (x - at_ 0 (knots p) (chosen_row (knots p) x))).
Proof.
  intro Hv. exists (derived p). split; [now apply differentiate_ok|].
  apply valid_iff in Hv. destruct Hv as (Hl & Hs & Hk).
  intro x. split.
  - intro H. split; now apply eval_PP_outside.
  - intros H0 H4. split.
    + rewrite (eval_PP_chosen p x Hl Hk H0 H4). apply piece_cubic.
    + rewrite (eval_PP_chosen (derived p) x Hl Hk H0 H4), piece_cubic.
      cbn [derived knots coefs]. rewrite row_map; [reflexivity|].
      rewrite (shape_is_length _ _ _ Hs).
      unfold chosen_row.
      destruct (Qcleb _ _); [lia|]. destruct (Qcleb _ _); [lia|].
      destruct (Qcleb _ _); lia.
Qed.

Lemma differentiate_then_evaluate_witness :
  valid pp_uniform /\
  exists p', differentiate pp_uniform = Ok p'
             /\ eval_PP p' (Q2Qc (3 # 2)) = Q2Qc (5 # 8).
Proof.
  split; [exact valid_pp_uniform|].
  destruct (differentiate_then_evaluate pp_uniform valid_pp_uniform)
    as (p' & Hd & H).
  exists p'. split; [exact Hd|].
  destruct (H (Q2Qc (3 # 2))) as [_ H2].
  destruct H2 as [_ H2]; [vm_compute; congruence | vm_compute; congruence |].
  rewrite H2. qc_compute.
Defined.

(** ** Entries of the value and derivative matrices *)

Lemma value_cells_entry (pts : list Qc) (basis : list PP_Cubic)
    (i j : nat) (b : PP_Cubic) :
  (i < length pts)%nat -> nth_error basis j = Some b ->
  cell (value_cells pts basis) i j = eval_PP b (at_ 0 pts i).
Proof.
  intros Hi Hj. unfold cell, row, value_cells.
  rewrite (at_map (fun x => map (fun b => eval_PP b x) basis) 0 [] pts i Hi).
  assert (Hlj : (j < length basis)%nat) by (apply nth_error_Some; congruence).
  rewrite (at_map (fun b => eval_PP b (at_ 0 pts i)) b 0 basis j Hlj).
  unfold at_ at 1. now rewrite (nth_error_nth _ _ b Hj).
Qed.

(** The value matrix has one row per point and one column per basis
    function: its entry [(i, j)] is [basis[j]] evaluated at [points[i]];
    the entry of the derivative matrix is the derivative of [basis[j]]
    evaluated there. *)
Theorem basis_matrix_entries (pts : list Qc) (basis : list PP_Cubic) :
  basis <> [] -> Forall valid basis ->
  exists V D,
    get_basis_matrix (NdArray pts) basis = Ok V
    /\ get_deriv_matrix (NdArray pts) basis = Ok D
    /\ forall i j b, (i < length pts)%nat -> nth_error basis j = Some b ->
         entry V i j = eval_PP b (at_ 0 pts i)
         /\ exists b', differentiate b = Ok b'
                       /\ entry D i j = eval_PP b' (at_ 0 pts i).
Proof.
  intros Hne Hv.
  assert (Hne' : map derived basis <> [])
    by (destruct basis; [congruence | discriminate]).
  exists (mkArr [length pts; length basis] (value_cells pts basis)),
         (mkArr [length pts; length basis]
                (value_cells pts (map derived basis))).
  split; [now apply get_basis_matrix_ok|]. split.
  { unfold get_deriv_matrix. rewrite (mapM_differentiate basis Hv).
    cbn [bind]. rewrite mapM_call. cbn [bind].
    rewrite (T_np_array pts _ Hne'), length_map. reflexivity. }
  intros i j b Hi Hj. unfold entry. cbn [cells]. split.
  - now apply value_cells_entry.
  - exists (derived b). split.
    + apply differentiate_ok. rewrite Forall_forall in Hv.
      apply Hv. eapply nth_error_In, Hj.
    + apply value_cells_entry; [exact Hi|].
      rewrite nth_error_map, Hj. reflexivity.
Qed.

Lemma basis_matrix_entries_witness :
  basis11 <> [] /\ Forall valid basis11 /\
  exists V, get_basis_matrix (NdArray data11) basis11 = Ok V
            /\ entry V 4 5 = Q2Qc (2 # 3).
Proof.
  split; [discriminate|].
  assert (Hv : Forall valid basis11)
    by (apply (basis_valid uniform_basis_c (NdArray data11)),
          get_BSbasis_data11).
  split; [exact Hv|].
  destruct (basis_matrix_entries data11 basis11) as (V & D & HV & _ & H).
  - discriminate.
  - exact Hv.
  - exists V. split; [exact HV|].
    destruct (H 4%nat 5%nat (at_ pp_uniform basis11 5)) as [E _].
    + vm_compute. lia.
    + reflexivity.
    + rewrite E. qc_compute.
Defined.

(** ** Local support of a basis *)

(** A point strictly between two consecutive data points lies in the
    support of at most 4 functions of the basis built from the data: every
    function whose index is below [k] or above [k + 3] evaluates to 0 there,
    whatever table scipy returned.  The value matrix is banded. *)
Theorem basis_local_support (Bbasis_c : list Qc -> table) (data : list Qc)
    (basis : list PP_Cubic) (k j : nat) (b : PP_Cubic) (x : Qc) :
  get_BSbasis Bbasis_c (NdArray data) = Ok basis ->
  (S k < length data)%nat ->
  at_ 0 data k < x -> x < at_ 0 data (S k) ->
  nth_error basis j = Some b ->
  (j < k \/ k + 3 < j)%nat ->
  eval_PP b x = 0.
Proof.
  intros H Hk Hlo Hhi Hj Hband.
  apply get_BSbasis_conditions in H.
  destruct H as (Hne & Hs & _ & ->).
  apply sortedb_nondecreasing in Hs.
  assert (Hjl : (j < length data + 2)%nat).
  { assert (Hlt : (j < length (map (basis_at Bbasis_c (padded_knots data))
                                  (seq 0 (length data + 2))))%nat)
      by (apply nth_error_Some; congruence).
    now rewrite length_map, length_seq in Hlt. }
  rewrite nth_error_map, nth_error_seq in Hj.
  destruct (Nat.ltb_spec j (length data + 2)); [|lia].
  cbn [option_map Nat.add] in Hj. inversion Hj; subst b. clear Hj.
  apply eval_PP_outside. unfold basis_at. cbn [knots].
  rewrite !at_slice by lia.
  rewrite !nth_padded by (auto; lia).
  destruct Hband as [Hb | Hb].
  - right. apply (Qcle_lt_trans _ (at_ 0 data k)); [|exact Hlo].
    apply Hs; lia.
  - left. apply (Qclt_le_trans _ (at_ 0 data (S k))); [exact Hhi|].
    apply Hs; lia.
Qed.

Lemma basis_local_support_witness :
  get_BSbasis uniform_basis_c (NdArray data11) = Ok basis11
  /\ eval_PP (at_ pp_uniform basis11 9) (Q2Qc (5 # 2)) = 0.
Proof.
  split; [exact get_BSbasis_data11|].
  apply (basis_local_support uniform_basis_c data11 basis11 2 9
           (at_ pp_uniform basis11 9) (Q2Qc (5 # 2)) get_BSbasis_data11);
    vm_compute; try reflexivity; lia.
Defined.

(** ** What [__mod__] computes *)

(** [linear_product_integral u v] is the antiderivative, 0 at 0, of the
    product of the two linear functions. *)
Lemma linear_product_integral_expansion (u v : Qc * Qc) (L h : Qc) :
  linear_product_integral u v (L + h)
  = linear_product_integral u v L
    + h * ((fst u * L + snd u) * (fst v * L + snd v))
    + h * h * (fst u * fst v * L + fst u * fst v * h / ofnat 3
               + (fst u * snd v + snd u * fst v) / ofnat 2).
Proof.
  unfold linear_product_integral.
  cbv beta iota delta [Qcpower].
  change (ofnat 3) with (1 + 1 + 1). change (ofnat 2) with (1 + 1).
  field. split; discriminate.
Qed.

(** On two objects built by the constructor, [__mod__] returns the sum,
    over the rows [r] of the first operand that the index offset pairs with
    a row [r - (idx g - idx f)] of the second, of the integral over
    [[0, knots f[r+1] - knots f[r]]] of the product of the two second
    derivatives; [linear_product_integral] is that integral (0 at length 0,
    with the product of the two linear functions as its derivative). *)
Theorem mod_is_integral (f g : PP_Cubic) :
  valid f -> valid g ->
  product_integrate f g = Ok (overlap_integral f g)
  /\ (forall u v : Qc * Qc, linear_product_integral u v 0 = 0)
  /\ (forall (u v : Qc * Qc) (L h : Qc),
        linear_product_integral u v (L + h)
        = linear_product_integral u v L
          + h * ((fst u * L + snd u) * (fst v * L + snd v))
          + h * h * (fst u * fst v * L + fst u * fst v * h / ofnat 3
                     + (fst u * snd v + snd u * fst v) / ofnat 2)).
Proof.
  intros Hf Hg. split; [now apply product_integrate_ok|].
  split; [apply linear_product_integral_0|].
  apply linear_product_integral_expansion.
Qed.

Lemma mod_is_integral_witness :
  valid (at_ pp_uniform basis11 5) /\ valid (at_ pp_uniform basis11 6)
  /\ product_integrate (at_ pp_uniform basis11 5) (at_ pp_uniform basis11 6)
     = Ok (Q2Qc (-3 # 2)).
Proof.
  assert (H5 : valid (at_ pp_uniform basis11 5)) by (unfold valid; qc_compute).
  assert (H6 : valid (at_ pp_uniform basis11 6)) by (unfold valid; qc_compute).
  split; [exact H5|]. split; [exact H6|].
  rewrite (proj1 (mod_is_integral _ _ H5 H6)). qc_compute.
Defined.

(** [__mod__] reads the knots of its first operand only: replacing the
    second operand by an object with the same index and table and any other
    knots does not change the result.  (So the result is the integral of
    [f'' * g''] only when both are windows of one knot sequence.) *)
Theorem mod_ignores_second_knots (f g g' : PP_Cubic) :
  valid f -> valid g -> valid g' ->
  idx g' = idx g -> coefs g' = coefs g ->
  product_integrate f g' = product_integrate f g.
Proof.
  intros Hf Hg Hg' Hi Hc.
  rewrite !product_integrate_ok by assumption.
  unfold overlap_integral. rewrite Hi, Hc. reflexivity.
Qed.

(** The uniform table over the stretched knots 0, 2, 4, 6, 8. *)
Lemma mod_ignores_second_knots_witness :
  product_integrate pp_uniform
    (mkPP 0 (map ofZ [0; 2; 4; 6; 8]%Z) uniform_c)
  = product_integrate pp_uniform pp_uniform
  /\ product_integrate (mkPP 0 (map ofZ [0; 2; 4; 6; 8]%Z) uniform_c)
       pp_uniform
     <> product_integrate pp_uniform pp_uniform.
Proof.
  split.
  - apply mod_ignores_second_knots;
      try exact valid_pp_uniform; reflexivity.
  - vm_compute. intro H. inversion H.
Defined.

(** ** Entries of the penalty matrix *)

(** For any list of objects built by the constructor (windows of one knot
    sequence or not), [get_penalty_matrix] succeeds and its entry [(i, j)]
    is [basis[i] % basis[j]], the row index being the first operand. *)
Theorem penalty_matrix_entries (basis : list PP_Cubic) :
  Forall valid basis ->
  exists P,
    get_penalty_matrix basis = Ok P
    /\ shape P = [length basis; length basis]
    /\ forall i j f g,
         nth_error basis i = Some f -> nth_error basis j = Some g ->
         product_integrate f g = Ok (entry P i j).
Proof.
  intro Hv. eexists. split; [now apply get_penalty_matrix_ok|].
  split; [reflexivity|].
  intros i j f g Hi Hj. unfold entry. cbn [cells].
  rewrite (penalty_cell basis i j f g Hi Hj).
  rewrite Forall_forall in Hv.
  apply product_integrate_ok; apply Hv; eapply nth_error_In; eassumption.
Qed.

Lemma penalty_matrix_entries_witness :
  Forall valid basis11 /\
  exists P, get_penalty_matrix basis11 = Ok P
            /\ product_integrate (at_ pp_uniform basis11 5)
                                 (at_ pp_uniform basis11 8)
               = Ok (entry P 5 8).
Proof.
  assert (Hv : Forall valid basis11)
    by (apply (basis_valid uniform_basis_c (NdArray data11)),
          get_BSbasis_data11).
  split; [exact Hv|].
  destruct (penalty_matrix_entries basis11 Hv) as (P & HP & _ & H).
  exists P. split; [exact HP|]. apply H; reflexivity.
Defined.

(** ** The diagonal of the penalty matrix *)

Lemma Qc_mult_nonneg (x y : Qc) : 0 <= x -> 0 <= y -> 0 <= x * y.
Proof.
  intros Hx Hy. replace 0 with (0 * y) by ring.
  now apply Qcmult_le_compat_r.
Qed.

Lemma Qc_plus_nonneg (x y : Qc) : 0 <= x -> 0 <= y -> 0 <= x + y.
Proof.
  intros Hx Hy. replace 0 with (0 + 0) by ring.
  now apply Qcplus_le_compat.
Qed.

Lemma Qc_square_nonneg (x : Qc) : 0 <= x * x.
Proof.
  destruct (Qclt_le_dec x 0) as [H|H].
  - replace (x * x) with ((- x) * (- x)) by ring.
    assert (0 <= - x).
    { replace 0 with (- 0) by ring. apply Qcopp_le_compat.
      now apply Qclt_le_weak. }
    now apply Qc_mult_nonneg.
  - now apply Qc_mult_nonneg.
Qed.

(** The integral of a square over an interval of non-negative length. *)
Lemma linear_product_integral_square (u : Qc * Qc) (L : Qc) :
  0 <= L -> 0 <= linear_product_integral u u L.
Proof.
  intro HL.
  replace (linear_product_integral u u L)
    with (L * ((snd u + fst u * L / (1 + 1)) * (snd u + fst u * L / (1 + 1))
               + (fst u * L) * (fst u * L) / (1 + 1 + 1) / (1 + 1) / (1 + 1))).
  - apply Qc_mult_nonneg; [exact HL|].
    apply Qc_plus_nonneg; [apply Qc_square_nonneg|].
    unfold Qcdiv.
    apply Qc_mult_nonneg;
      [apply Qc_mult_nonneg;
       [apply Qc_mult_nonneg; [apply Qc_square_nonneg|]|]|];
      unfold Qcle; vm_compute; congruence.
  - unfold linear_product_integral.
    cbv beta iota delta [Qcpower].
    change (ofnat 3) with (1 + 1 + 1). change (ofnat 2) with (1 + 1).
    field. split; discriminate.
Qed.

(** A diagonal entry of the penalty matrix is not negative: for an object
    built by the constructor, [p % p] is a sum of integrals of squares over
    intervals whose lengths the sortedness check of the constructor makes
    non-negative. *)
Theorem mod_self_nonneg (p : PP_Cubic) :
  valid p -> exists v, product_integrate p p = Ok v /\ 0 <= v.
Proof.
  intro Hv. exists (overlap_integral p p).
  split; [now apply product_integrate_ok|].
  apply valid_iff in Hv. destruct Hv as (Hl & _ & Hk).
  apply sortedb_nondecreasing in Hk.
  assert (HL : forall r, (r < 4)%nat ->
            0 <= at_ 0 (knots p) (r + 1) - at_ 0 (knots p) r).
  { intros r Hr. apply -> Qcle_minus_iff. apply Hk; lia. }
  assert (E : overlap_integral p p
              = 0
                + linear_product_integral
                    (second_derivative (row (coefs p) 0))
                    (second_derivative (row (coefs p) 0))
                    (at_ 0 (knots p) 1 - at_ 0 (knots p) 0)
                + linear_product_integral
                    (second_derivative (row (coefs p) 1))
                    (second_derivative (row (coefs p) 1))
                    (at_ 0 (knots p) 2 - at_ 0 (knots p) 1)
                + linear_product_integral
                    (second_derivative (row (coefs p) 2))
                    (second_derivative (row (coefs p) 2))
                    (at_ 0 (knots p) 3 - at_ 0 (knots p) 2)
                + linear_product_integral
                    (second_derivative (row (coefs p) 3))
                    (second_derivative (row (coefs p) 3))
                    (at_ 0 (knots p) 4 - at_ 0 (knots p) 3))
    by (unfold overlap_integral; rewrite Z.sub_diag; reflexivity).
  rewrite E.
  apply Qc_plus_nonneg;
    [apply Qc_plus_nonneg;
     [apply Qc_plus_nonneg;
      [apply Qc_plus_nonneg; [apply Qcle_refl|]|]|]|];
    apply linear_product_integral_square.
  - apply (HL 0%nat); lia.
  - apply (HL 1%nat); lia.
  - apply (HL 2%nat); lia.
  - apply (HL 3%nat); lia.
Qed.

Lemma mod_self_nonneg_witness :
  valid pp_uniform /\
  exists v, product_integrate pp_uniform pp_uniform = Ok v /\ 0 <= v.
Proof.
  split; [exact valid_pp_uniform|].
  exact (mod_self_nonneg pp_uniform valid_pp_uniform).
Defined.

(** ** The operations [__mod__] starts *)

Ltac count_offset Hf Hg Hd :=
  let f := match type of Hd with (idx _ - idx ?f = _)%Z => f end in
  let g := match type of Hd with (idx ?g - idx _ = _)%Z => g end in
  let d := match type of Hd with (_ = ?d)%Z => d end in
  unfold __mod__;
  replace (idx f - idx g)%Z with (- d)%Z by lia;
  change (3 <? Z.abs (- d))%Z with false; cbv iota;
  rewrite (differentiate_t_ok f Hf); cbn [tbind];
  rewrite (differentiate_t_ok _ (derived_valid f Hf)); cbn [tbind];
  rewrite (differentiate_t_ok g Hg); cbn [tbind];
  rewrite (differentiate_t_ok _ (derived_valid g Hg)); cbn [tbind];
  cbn [derived idx knots coefs];
  decide_branches;
  replace (idx f - idx g)%Z with (- d)%Z by lia;
  rewrite ?Hd;
  let Hfs := fresh in let Hgs := fresh in
  destruct (proj1 (valid_iff f) Hf) as (_ & Hfs & _);
  destruct (proj1 (valid_iff g) Hg) as (_ & Hgs & _);
  destruct (shape_4x4_inv _ Hfs)
    as (? & ? & ? & ? & ? & ? & ? & ? & ? & ? & ? & ? & ? & ? & ? & ? & ->);
  destruct (shape_4x4_inv _ Hgs)
    as (? & ? & ? & ? & ? & ? & ? & ? & ? & ? & ? & ? & ? & ? & ? & ? & ->);
  cbv - [Qcplus Qcmult Qcminus Qcopp Qcinv Qcdiv Q2Qc ofnat polyval integ];
  reflexivity.

(** Inside the band, on two objects built by the constructor, [__mod__]
    differentiates 4 times, convolves exactly the [4 - |idx f - idx g|] pairs
    of rows that the offset lines up, and calls [integ] twice for each of
    the 4 rows, those left at zero included. *)
Theorem mod_operation_count (f g : PP_Cubic) :
  valid f -> valid g -> (Z.abs (idx f - idx g) <= 3)%Z ->
  fst (__mod__ f g)
  = repeat OpDifferentiate 4
    ++ repeat OpConvolve (4 - Z.to_nat (Z.abs (idx f - idx g)))
    ++ repeat OpInteg 8.
Proof.
  intros Hf Hg Hd.
  assert (H : (idx g - idx f = -3 \/ idx g - idx f = -2 \/ idx g - idx f = -1
               \/ idx g - idx f = 0 \/ idx g - idx f = 1
               \/ idx g - idx f = 2 \/ idx g - idx f = 3)%Z) by lia.
  clear Hd.
  destruct H as [H|[H|[H|[H|[H|[H|H]]]]]]; count_offset Hf Hg H.
Qed.

Lemma mod_operation_count_witness :
  valid pp_uniform /\ (Z.abs (idx pp_uniform - idx pp_uniform) <= 3)%Z
  /\ length (fst (__mod__ pp_uniform pp_uniform)) = 16%nat.
Proof.
  split; [exact valid_pp_uniform|]. split; [vm_compute; congruence|].
  rewrite (mod_operation_count pp_uniform pp_uniform valid_pp_uniform
             valid_pp_uniform); [reflexivity | vm_compute; congruence].
Defined.

(** ** [conv] multiplies polynomials *)

Lemma Qcpower_add (t : Qc) (n m : nat) : t ^ (n + m) = t ^ n * t ^ m.
Proof.
  induction n as [|n IH].
  - change (t ^ 0) with 1. cbn [Nat.add]. ring.
  - change (t ^ (S n + m)) with (t * t ^ (n + m)).
    change (t ^ S n) with (t * t ^ n). rewrite IH. ring.
Qed.

Lemma horner_acc (p : list Qc) (t acc : Qc) :
  fold_left (fun y pv => y * t + pv) p acc
  = acc * t ^ length p + polyval p t.
Proof.
  unfold polyval. revert acc. induction p as [|a p IH]; intro acc.
  - cbn [fold_left length]. change (t ^ 0) with 1. ring.
  - cbn [fold_left length]. rewrite (IH (acc * t + a)), (IH (0 * t + a)).
    change (t ^ S (length p)) with (t * t ^ length p). ring.
Qed.

Lemma polyval_cons (a : Qc) (p : list Qc) (t : Qc) :
  polyval (a :: p) t = a * t ^ length p + polyval p t.
Proof.
  unfold polyval at 1. cbn [fold_left]. rewrite horner_acc. ring.
Qed.

Lemma polyval_scale (x : Qc) (b : list Qc) (t : Qc) :
  polyval (map (Qcmult x) b) t = x * polyval b t.
Proof.
  induction b as [|y b IH].
  - unfold polyval. cbn [map fold_left]. ring.
  - cbn [map]. rewrite !polyval_cons, IH, length_map. ring.
Qed.

Lemma padd_length (u v : list Qc) :
  length (padd u v) = Nat.max (length u) (length v).
Proof.
  revert v. induction u as [|x u IH]; intro v; [reflexivity|].
  destruct v as [|y v]; [reflexivity|].
  cbn [padd length]. rewrite IH. lia.
Qed.

(** [padd] adds two polynomials whose leading coefficients stand for the
    same degree. *)
Lemma polyval_padd (u v : list Qc) (t : Qc) :
  polyval (padd u v) t
  = polyval u t * t ^ (Nat.max (length u) (length v) - length u)
    + polyval v t * t ^ (Nat.max (length u) (length v) - length v).
Proof.
  revert v. induction u as [|x u IH]; intro v.
  - cbn [padd length]. rewrite Nat.max_0_l, Nat.sub_diag.
    change (t ^ 0) with 1. unfold polyval at 2. cbn [fold_left]. ring.
  - destruct v as [|y v].
    + cbn [padd length]. rewrite Nat.max_0_r, Nat.sub_diag.
      change (t ^ 0) with 1. unfold polyval at 3. cbn [fold_left]. ring.
    + cbn [padd length]. rewrite !polyval_cons, IH, padd_length.
      set (m := Nat.max (length u) (length v)).
      replace (Nat.max (S (length u)) (S (length v))) with (S m) by lia.
      replace (S m - S (length u))%nat with (m - length u)%nat by lia.
      replace (S m - S (length v))%nat with (m - length v)%nat by lia.
      rewrite Qcmult_plus_distr_l.
      replace (x * t ^ m) with (x * (t ^ length u * t ^ (m - length u)))
        by (rewrite <- Qcpower_add; do 2 f_equal; lia).
      replace (y * t ^ m) with (y * (t ^ length v * t ^ (m - length v)))
        by (rewrite <- Qcpower_add; do 2 f_equal; lia).
      ring.
Qed.

Lemma convolve_length (a b : list Qc) :
  a <> [] -> b <> [] ->
  length (convolve a b) = (length a + length b - 1)%nat.
Proof.
  intros Ha Hb. induction a as [|x a IH]; [congruence|].
  cbn [convolve]. rewrite padd_length, length_map. cbn [length].
  destruct a as [|x' a].
  - cbn [convolve length]. destruct b; [congruence | simpl; lia].
  - rewrite IH by discriminate. cbn [length]. lia.
Qed.

(** [convolve] is the product of the polynomials. *)
Lemma polyval_convolve (a b : list Qc) (t : Qc) :
  b <> [] -> polyval (convolve a b) t = polyval a t * polyval b t.
Proof.
  intro Hb. induction a as [|x a IH].
  - unfold polyval. cbn [convolve fold_left]. ring.
  - cbn [convolve]. rewrite polyval_padd, polyval_scale, length_map.
    rewrite (polyval_cons 0), IH, (polyval_cons x). cbn [length].
    assert (Hlb : (1 <= length b)%nat)
      by (destruct b; [congruence | simpl; lia]).
    destruct a as [|x' a].
    + cbn [convolve length].
      replace (Nat.max (length b) 1) with (length b) by lia.
      rewrite Nat.sub_diag. change (t ^ 0) with 1.
      change (polyval [] t) with 0. ring.
    + rewrite convolve_length by (discriminate || exact Hb).
      set (n := length (x' :: a)).
      assert (Hn : (1 <= n)%nat) by (unfold n; simpl; lia).
      replace (Nat.max (length b) (S (n + length b - 1)))
        with (n + length b)%nat by lia.
      replace (n + length b - length b)%nat with n by lia.
      replace (n + length b - S (n + length b - 1))%nat with 0%nat by lia.
      change (t ^ 0) with 1. ring.
Qed.

Lemma conv_value (A B : table) :
  conv A B
  = (repeat OpConvolve (length (combine A B)),
     Ok (map (fun ab => convolve (fst ab) (snd ab)) (combine A B))).
Proof.
  unfold conv. induction (combine A B) as [|ab l IH]; [reflexivity|].
  cbn [tmapM]. unfold tick at 1. cbn [tbind tret].
  rewrite IH. cbn [tbind tret app length repeat map].
  rewrite app_nil_r. reflexivity.
Qed.

Lemma nth_combine {X Y} (l : list X) (l' : list Y) (i : nat) (dx : X) (dy : Y) :
  (i < length l)%nat -> (i < length l')%nat ->
  nth i (combine l l') (dx, dy) = (nth i l dx, nth i l' dy).
Proof.
  revert l' i. induction l as [|x l IH]; intros l' i Hl Hl';
    [simpl in Hl; lia|].
  destruct l' as [|y l']; [simpl in Hl'; lia|].
  destruct i as [|i]; [reflexivity|].
  cbn [combine nth]. apply IH; simpl in *; lia.
Qed.

(** The local function [conv] pairs the rows of its two tables like [zip]
    (up to the shorter table), calls [np.convolve] once per pair, and each
    resulting row is the product polynomial of the pair: evaluated at any
    [t] it gives the product of the two rows evaluated at [t], and it has
    [len(a) + len(b) - 1] coefficients. *)
Theorem conv_multiplies (A B : table) :
  Forall (fun r => r <> []) A -> Forall (fun r => r <> []) B ->
  exists rows,
    conv A B = (repeat OpConvolve (Nat.min (length A) (length B)), Ok rows)
    /\ length rows = Nat.min (length A) (length B)
    /\ forall i, (i < Nat.min (length A) (length B))%nat ->
         length (row rows i)
         = (length (row A i) + length (row B i) - 1)%nat
         /\ forall t, polyval (row rows i) t
                      = polyval (row A i) t * polyval (row B i) t.
Proof.
  intros HA HB. rewrite Forall_forall in HA, HB.
  eexists. rewrite conv_value, length_combine. split; [reflexivity|].
  split; [now rewrite length_map, length_combine|].
  intros i Hi. unfold row.
  rewrite (at_map (fun ab : list Qc * list Qc => convolve (fst ab) (snd ab))
             (@nil Qc, @nil Qc) [] (combine A B) i)
    by (rewrite length_combine; exact Hi).
  unfold at_. rewrite nth_combine by lia. cbn [fst snd].
  assert (Ha : nth i A [] <> []) by (apply HA, nth_In; lia).
  assert (Hb : nth i B [] <> []) by (apply HB, nth_In; lia).
  split; [now apply convolve_length|].
  intro t. now apply polyval_convolve.
Qed.

Lemma conv_multiplies_witness :
  Forall (fun r : list Qc => r <> []) [[ofZ 1; ofZ 2]]
  /\ Forall (fun r : list Qc => r <> []) [[ofZ 3; ofZ 4]]
  /\ exists rows, snd (conv [[ofZ 1; ofZ 2]] [[ofZ 3; ofZ 4]]) = Ok rows
                  /\ length rows = 1%nat.
Proof.
  assert (H1 : Forall (fun r : list Qc => r <> []) [[ofZ 1; ofZ 2]])
    by (repeat constructor; discriminate).
  assert (H2 : Forall (fun r : list Qc => r <> []) [[ofZ 3; ofZ 4]])
    by (repeat constructor; discriminate).
  split; [exact H1|]. split; [exact H2|].
  destruct (conv_multiplies _ _ H1 H2) as (rows & E & Hl & _).
  exists rows. rewrite E. split; [reflexivity | exact Hl].
Defined.

(** ** A window of one repeated knot *)

(** When the 5 knots of the first operand coincide (as for the first two
    and the last two windows of the data [[0,0,0,1,1,1]]), every interval
    has length 0 and [__mod__] returns 0 with any second operand: no
    division by an interval length occurs. *)
Theorem mod_degenerate_window (f g : PP_Cubic) :
  valid f -> valid g ->
  (forall r, (r <= 4)%nat -> at_ 0 (knots f) r = at_ 0 (knots f) 0) ->
  product_integrate f g = Ok 0.
Proof.
  intros Hf Hg Hk. rewrite (product_integrate_ok f g Hf Hg). f_equal.
  unfold overlap_integral. cbn [seq map Nat.add].
  rewrite (Hk 1%nat), (Hk 2%nat), (Hk 3%nat), (Hk 4%nat) by lia.
  replace (at_ 0 (knots f) 0 - at_ 0 (knots f) 0) with 0 by ring.
  rewrite !linear_product_integral_0.
  repeat match goal with
         | |- context [if ?c then 0 else 0] => destruct c
         end; cbn [fold_left]; ring.
Qed.

Lemma mod_degenerate_window_witness :
  valid (mkPP 0 (map ofZ [0; 0; 0; 0; 0]%Z) uniform_c) /\ valid pp_uniform
  /\ product_integrate (mkPP 0 (map ofZ [0; 0; 0; 0; 0]%Z) uniform_c)
                       pp_uniform = Ok 0.
Proof.
  assert (H : valid (mkPP 0 (map ofZ [0; 0; 0; 0; 0]%Z) uniform_c))
    by reflexivity.
  split; [exact H|]. split; [exact valid_pp_uniform|].
  apply (mod_degenerate_window _ _ H valid_pp_uniform).
  intros [|[|[|[|[|r]]]]] Hr; try reflexivity. lia.
Defined.

(** ** The matrix builders on an empty basis and on a list of points *)

(** With an empty basis the value and derivative matrices are the 1-D empty
    array of shape [(0,)], whatever the points are (no check of the points
    is reached), and the penalty matrix has shape [(0, 0)].  With a first
    basis function and points that are not a numpy array, the value matrix
    fails the assertion of [__call__], and so does the derivative matrix
    once the basis functions have been differentiated. *)
Theorem matrix_builders_edge :
  (forall data : pyseq Qc,
      get_basis_matrix data [] = Ok (mkArr [0%nat] [])
      /\ get_deriv_matrix data [] = Ok (mkArr [0%nat] []))
  /\ get_penalty_matrix [] = Ok (mkArr [0%nat; 0%nat] [])
  /\ (forall (pts : list Qc) (b : PP_Cubic) (basis : list PP_Cubic),
         get_basis_matrix (PyList pts) (b :: basis) = Raise AssertionError)
  /\ (forall (pts : list Qc) (b : PP_Cubic) (basis : list PP_Cubic),
         Forall valid (b :: basis) ->
         get_deriv_matrix (PyList pts) (b :: basis) = Raise AssertionError).
Proof.
  split; [intro data; split; reflexivity|].
  split; [reflexivity|]. split; [reflexivity|].
  intros pts b basis Hv. unfold get_deriv_matrix.
  rewrite (mapM_differentiate _ Hv). reflexivity.
Qed.

Lemma matrix_builders_edge_witness :
  Forall valid [pp_uniform]
  /\ get_deriv_matrix (PyList [ofZ 1]) [pp_uniform] = Raise AssertionError.
Proof.
  assert (H : Forall valid [pp_uniform])
    by (constructor; [exact valid_pp_uniform | constructor]).
  split; [exact H|].
  exact (proj2 (proj2 (proj2 matrix_builders_edge)) [ofZ 1] pp_uniform [] H).
Defined.

(** ** Outside the range of the data *)

(** Every function of a basis built by [get_BSbasis] evaluates to 0 at a
    point below the first or above the last data point: the rows of the
    value matrix for such points are zero, whatever table scipy returned. *)
Theorem basis_zero_outside_data (Bbasis_c : list Qc -> table)
    (data : list Qc) (basis : list PP_Cubic) (b : PP_Cubic) (x : Qc) :
  get_BSbasis Bbasis_c (NdArray data) = Ok basis ->
  In b basis ->
  x < at_ 0 data 0 \/ at_ 0 data (length data - 1) < x ->
  eval_PP b x = 0.
Proof.
  intros H Hb Hx.
  apply get_BSbasis_conditions in H.
  destruct H as (Hne & Hs & _ & ->).
  apply sortedb_nondecreasing in Hs.
  assert (Hlen : (0 < length data)%nat)
    by (destruct data; [congruence | simpl; lia]).
  apply in_map_iff in Hb. destruct Hb as (j & <- & Hj).
  apply in_seq in Hj.
  apply eval_PP_outside. unfold basis_at. cbn [knots].
  rewrite !at_slice by lia.
  rewrite !nth_padded by (auto; lia).
  destruct Hx as [Hx | Hx].
  - left. apply (Qclt_le_trans _ (at_ 0 data 0)); [exact Hx|].
    apply Hs; lia.
  - right. apply (Qcle_lt_trans _ (at_ 0 data (length data - 1))); [|exact Hx].
    apply Hs; lia.
Qed.

Lemma basis_zero_outside_data_witness :
  get_BSbasis uniform_basis_c (NdArray data11) = Ok basis11
  /\ eval_PP (at_ pp_uniform basis11 12) (ofZ 11) = 0.
Proof.
  split; [exact get_BSbasis_data11|].
  apply (basis_zero_outside_data uniform_basis_c data11 basis11
           (at_ pp_uniform basis11 12) (ofZ 11) get_BSbasis_data11).
  - vm_compute. repeat (first [left; reflexivity | right]).
  - right. vm_compute. reflexivity.
Defined.
